(** * Scroll-driven camera timeline: configuration, controllers and easing helpers

    A shallow embedding of
    - [src/config/scenes.config.ts]        (module [Config]),
    - [src/3d/controllers/CameraController.ts] (module [CameraController]),
    - [src/hooks/useScrollAnimation.ts]    (module [ScrollAnimation]),
    - the easing / range helpers           (module [Animations]),
    - the WebGL capability detection       (module [WebGL]),
    - the [useResponsive] hook             (module [Responsive]),
    - the glove components' frame motion   (module [Glove]).

    Numbers.  A JavaScript [number] is idealised as an exact number: the
    timeline files only compare, add and scale decimal literals, and are
    embedded over the rationals [Q], so every definition there evaluates;
    the easing helpers call [Math.sin] and [Math.pow] with a real exponent,
    and are embedded over the reals [R].  Rounding of IEEE doubles and NaN
    are outside the model. *)

From Stdlib Require Import ZArith QArith Qminmax List String Bool Lia.
From Stdlib Require Import Reals Psatz.
Import ListNotations.

Set Implicit Arguments.

(** ** JavaScript helpers *)

Module Js.

(** [a < b] and [a >= b] on numbers. *)
Definition ltb (a b : Q) : bool := negb (Qle_bool b a).
Definition geb (a b : Q) : bool := Qle_bool b a.

(** [Array.prototype.findIndex]: index of the first element satisfying
    the predicate, [-1] when there is none. *)
Fixpoint findIndexFrom {A : Type} (f : A -> bool) (l : list A) (i : Z) : Z :=
  match l with
  | [] => (-1)%Z
  | x :: r => if f x then i else findIndexFrom f r (i + 1)
  end.

Definition findIndex {A : Type} (f : A -> bool) (l : list A) : Z :=
  findIndexFrom f l 0.

End Js.

(** ** [src/config/scenes.config.ts] *)

Module Config.

Definition Vector3Tuple : Type := (Q * Q * Q)%type.
Definition EulerTuple : Type := (Q * Q * Q)%type.

Record CameraKeyframe : Type := {
  position : Vector3Tuple;
  rotation : EulerTuple;
  fov : option Q
}.

(** The [camera: { start, end }] member of a scene. *)
Record CameraRange : Type := {
  start : CameraKeyframe;
  end_ : CameraKeyframe
}.

Record SceneConfig : Type := {
  id : string;
  name : string;
  scrollStart : Q;
  scrollEnd : Q;
  duration : Q;
  camera : CameraRange;
  easing : string;
  description : string
}.

Definition SCENE_TIMELINE : list SceneConfig := [
  {| id := "hero";
     name := "Hero Introduction";
     scrollStart := 0;
     scrollEnd := 0.2;
     duration := 1.2;
     camera := {|
       start := {| position := (0, 0, 5); rotation := (0, 0, 0); fov := None |};
       end_ := {| position := (0, 0, 5); rotation := (0, 0, 0); fov := None |} |};
     easing := "power1.inOut";
     description := "Static establishing shot - let the model speak for itself" |};
  {| id := "gesture-flow";
     name := "Gesture to Voice Flow";
     scrollStart := 0.2;
     scrollEnd := 0.5;
     duration := 2.0;
     camera := {|
       start := {| position := (0, 0, 5); rotation := (0, 0, 0); fov := None |};
       end_ := {| position := (0, 0.2, 2.8); rotation := (0, 0.08, 0); fov := None |} |};
     easing := "power1.inOut";
     description := "Slow dolly in - intentional approach to show sensor detail" |};
  {| id := "technology";
     name := "Technology Architecture";
     scrollStart := 0.5;
     scrollEnd := 0.7;
     duration := 1.5;
     camera := {|
       start := {| position := (0, 0.2, 2.8); rotation := (0, 0.08, 0); fov := None |};
       end_ := {| position := (2.5, 1.5, 4); rotation := (-0.15, -0.25, 0); fov := None |} |};
     easing := "power1.inOut";
     description := "Heavier orbit movement - reveals the full system" |};
  {| id := "impact";
     name := "Social Impact";
     scrollStart := 0.7;
     scrollEnd := 0.9;
     duration := 1.3;
     camera := {|
       start := {| position := (2.5, 1.5, 4); rotation := (-0.15, -0.25, 0); fov := None |};
       end_ := {| position := (0, 0.8, 6); rotation := (-0.05, 0, 0); fov := None |} |};
     easing := "power1.out";
     description := "Pull back with stillness - moment of calm for the message" |};
  {| id := "closing";
     name := "Call to Action";
     scrollStart := 0.9;
     scrollEnd := 1.0;
     duration := 0.8;
     camera := {|
       start := {| position := (0, 0.8, 6); rotation := (-0.05, 0, 0); fov := None |};
       end_ := {| position := (0, 0.3, 4.5); rotation := (0, 0, 0); fov := None |} |};
     easing := "power1.inOut";
     description := "Final resting position - confident ending" |}
]%Q.

Record ScrollConfig : Type := {
  scrubAmount : Q;
  triggerElement : string;
  triggerStart : string;
  triggerEnd : string
}.

Definition SCROLL_CONFIG : ScrollConfig :=
  {| scrubAmount := 2;
     triggerElement := "#scroll-container";
     triggerStart := "top top";
     triggerEnd := "bottom bottom" |}.

End Config.

(** ** The gsap calls made by the two hooks

    gsap is a third-party dependency; only the calls the hooks make are
    modelled, with the behaviour its documentation gives them:
    - [tl.to(target, {..., duration, ease}, position)] adds to the timeline
      a tween that starts at time [position], lasts [duration], and moves
      the listed properties of [target] from the values they have when the
      tween starts to the listed values, along the named ease;
    - a timeline driven by a scrubbed [ScrollTrigger] has its playhead at
      [progress * tl.duration()] once the scrub has caught up with the
      scroll position (the catch-up itself, [scrub] seconds of wall-clock
      time, is not modelled). *)

Module Gsap.
Import Config.

(** The mutable [THREE.PerspectiveCamera] fields that are animated. *)
Record Camera : Type := {
  cam_position : Vector3Tuple;
  cam_rotation : EulerTuple;
  cam_fov : Q
}.

(** Target object and destination values of one [tl.to] call. *)
Inductive TweenVars : Type :=
| ToPosition (x y z : option Q)   (* tl.to(camera.position, {x?, y?, z?, ...}) *)
| ToRotation (x y z : option Q)   (* tl.to(camera.rotation, {x?, y?, z?, ...}) *)
| ToFov (f : Q).                  (* tl.to(camera, {fov, ...}) *)

Record Tween : Type := {
  vars : TweenVars;
  tw_duration : Q;
  tw_ease : string;
  tw_at : Q
}.

Definition Timeline : Type := list Tween.

Definition to (tl : Timeline) (v : TweenVars) (duration : Q) (ease : string)
    (position : Q) : Timeline :=
  tl ++ [ {| vars := v; tw_duration := duration; tw_ease := ease; tw_at := position |} ].

(** [tl.duration()]: the latest end of a child tween. *)
Definition totalDuration (tl : Timeline) : Q :=
  fold_left (fun m tw => Qmax m (tw_at tw + tw_duration tw)) tl 0%Q.

(** The [powerN] family: [in] is [p ^ (N+1)], [out] and [inOut] derive
    from it. *)
Definition easeOut (easeIn : Q -> Q) (p : Q) : Q := 1 - easeIn (1 - p).
Definition easeInOut (easeIn : Q -> Q) (p : Q) : Q :=
  if Js.ltb p 0.5 then easeIn (p * 2) / 2 else 1 - easeIn ((1 - p) * 2) / 2.

Definition power1 (p : Q) : Q := p * p.
Definition power2 (p : Q) : Q := p * p * p.

(** Ease names used by the hooks; any other name falls back to gsap's
    default ease, [power1.out]. *)
Definition parseEase (name : string) : Q -> Q :=
  if String.eqb name "none" then (fun p => p)
  else if String.eqb name "power1.in" then power1
  else if String.eqb name "power1.out" then easeOut power1
  else if String.eqb name "power1.inOut" then easeInOut power1
  else if String.eqb name "power2.in" then power2
  else if String.eqb name "power2.out" then easeOut power2
  else if String.eqb name "power2.inOut" then easeInOut power2
  else easeOut power1.

(** Fraction of the tween that has elapsed at playhead [time]. *)
Definition ratio (tw : Tween) (time : Q) : Q :=
  if Qle_bool (tw_duration tw) 0 then 1
  else Qmin (Qmax ((time - tw_at tw) / tw_duration tw) 0) 1.

Definition lerp (a b e : Q) : Q := a + (b - a) * e.

(** A property the tween does not list keeps its value. *)
Definition lerpTo (a : Q) (b : option Q) (e : Q) : Q :=
  match b with
  | Some v => lerp a v e
  | None => a
  end.

(** One tween at playhead [time]; [c] holds the values left by the
    tweens placed before it. *)
Definition renderTween (time : Q) (c : Camera) (tw : Tween) : Camera :=
  if Js.ltb time (tw_at tw) then c
  else
    let e := parseEase (tw_ease tw) (ratio tw time) in
    match vars tw with
    | ToPosition x y z =>
        let '(px, py, pz) := cam_position c in
        {| cam_position := (lerpTo px x e, lerpTo py y e, lerpTo pz z e);
           cam_rotation := cam_rotation c;
           cam_fov := cam_fov c |}
    | ToRotation x y z =>
        let '(rx, ry, rz) := cam_rotation c in
        {| cam_position := cam_position c;
           cam_rotation := (lerpTo rx x e, lerpTo ry y e, lerpTo rz z e);
           cam_fov := cam_fov c |}
    | ToFov f =>
        {| cam_position := cam_position c;
           cam_rotation := cam_rotation c;
           cam_fov := lerp (cam_fov c) f e |}
    end.

Definition render (tl : Timeline) (time : Q) (c : Camera) : Camera :=
  fold_left (renderTween time) tl c.

(** Pose shown for scroll progress [progress]. *)
Definition scrubbed (tl : Timeline) (progress : Q) (c : Camera) : Camera :=
  render tl (progress * totalDuration tl) c.

End Gsap.

(** ** The consumer's side of a hook

    [S] is the state of whoever passed [onSceneChange]; invoking the
    callback with a scene index transforms that state.  The camera is the
    object handed to the hook, absent when the prop is [null]. *)

Section Hooks.

Variable S : Type.

Definition Callback : Type := Z -> S -> S.

Record World : Type := {
  cam : option Gsap.Camera;
  consumer : S
}.

(** What an effect leaves registered: the timeline, the pose the camera
    had when it was built, and the [onUpdate] handler of its
    [ScrollTrigger]. *)
Record Engine : Type := {
  timeline : Gsap.Timeline;
  pose0 : Gsap.Camera;
  handler : Q -> S -> S
}.

(** One progress notification from the scroll trigger.  With no engine
    registered nothing is subscribed and nothing happens. *)
Definition notify (e : option Engine) (w : World) (progress : Q) : World :=
  match e with
  | None => w
  | Some eng =>
      {| cam := Some (Gsap.scrubbed (timeline eng) progress (pose0 eng));
         consumer := handler eng progress (consumer w) |}
  end.

Definition run (e : option Engine) (ps : list Q) (w : World) : World :=
  fold_left (notify e) ps w.

End Hooks.

(** ** [src/3d/controllers/CameraController.ts] *)

Module CameraController.
Import Config.

Section WithConsumer.

Variable S : Type.

(** The predicate handed to [findIndex]. *)
Definition inScene (progress : Q) (scene : SceneConfig) : bool :=
  Js.geb progress (scrollStart scene) && Js.ltb progress (scrollEnd scene).

Definition currentScene (scenes : list SceneConfig) (progress : Q) : Z :=
  Js.findIndex (inScene progress) scenes.

(** The [onUpdate] handler of the scroll trigger. *)
Definition onUpdate (scenes : list SceneConfig)
    (onSceneChange : option (Callback S)) (progress : Q) (s : S) : S :=
  let currentScene := currentScene scenes progress in
  if negb (currentScene =? -1)%Z then
    match onSceneChange with
    | Some cb => cb (currentScene + 1)%Z s   (* 1-indexed for display *)
    | None => s
    end
  else s.

(** One iteration of [SCENE_TIMELINE.forEach]; the state is the timeline
    under construction and [cumulativeDuration]. *)
Definition addScene (st : Gsap.Timeline * Q) (scene : SceneConfig)
    : Gsap.Timeline * Q :=
  let '(tl, cumulativeDuration) := st in
  let cameraConfig := camera scene in
  let '(px, py, pz) := position (end_ cameraConfig) in
  let '(rx, ry, rz) := rotation (end_ cameraConfig) in
  let tl := Gsap.to tl (Gsap.ToPosition (Some px) (Some py) (Some pz))
              (duration scene) (easing scene) cumulativeDuration in
  let tl := Gsap.to tl (Gsap.ToRotation (Some rx) (Some ry) (Some rz))
              (duration scene) (easing scene) cumulativeDuration in
  let tl :=
    match fov (end_ cameraConfig) with
    | Some f =>
        if Qeq_bool f 0 then tl   (* [if (cameraConfig.end.fov)]: 0 is falsy *)
        else Gsap.to tl (Gsap.ToFov f)
               (duration scene) (easing scene) cumulativeDuration
    | None => tl
    end in
  (tl, (cumulativeDuration + duration scene)%Q).

Definition buildTimeline (scenes : list SceneConfig) : Gsap.Timeline :=
  fst (fold_left addScene scenes ([], 0%Q)).

(** The body of the effect, for a timeline configuration [scenes]; the
    hook itself runs it on the module constant. *)
Definition effect (scenes : list SceneConfig) (camera : option Gsap.Camera)
    (onSceneChange : option (Callback S)) : option (Engine S) :=
  match camera with
  | None => None                      (* if (!camera) return; *)
  | Some c =>
      Some {| timeline := buildTimeline scenes;
              pose0 := c;
              handler := onUpdate scenes onSceneChange |}
  end.

Definition useCameraController (camera : option Gsap.Camera)
    (onSceneChange : option (Callback S)) : option (Engine S) :=
  effect SCENE_TIMELINE camera onSceneChange.

End WithConsumer.

End CameraController.

(** ** [src/hooks/useScrollAnimation.ts] *)

Module ScrollAnimation.

Section WithConsumer.

Variable S : Type.

(** [onSceneChange?.(k)] *)
Definition callOpt (onSceneChange : option (Callback S)) (k : Z) (s : S) : S :=
  match onSceneChange with
  | Some cb => cb k s
  | None => s
  end.

(** The scene number chosen by the threshold chain of [onUpdate]. *)
Definition sceneOf (progress : Q) : Z :=
  if Js.ltb progress 0.2 then 1
  else if Js.ltb progress 0.5 then 2
  else if Js.ltb progress 0.7 then 3
  else if Js.ltb progress 0.9 then 4
  else 5.

Definition onUpdate (onSceneChange : option (Callback S)) (progress : Q) (s : S) : S :=
  if Js.ltb progress 0.2 then callOpt onSceneChange 1 s
  else if Js.ltb progress 0.5 then callOpt onSceneChange 2 s
  else if Js.ltb progress 0.7 then callOpt onSceneChange 3 s
  else if Js.ltb progress 0.9 then callOpt onSceneChange 4 s
  else callOpt onSceneChange 5 s.

(** The hard-coded tweens, in the order of the [tl.to] calls. *)
Definition buildTimeline : Gsap.Timeline :=
  let tl : Gsap.Timeline := [] in
  (* Scene 1: Hero *)
  let tl := Gsap.to tl (Gsap.ToPosition (Some 0) (Some 0) (Some 5)) 1 "power2.inOut" 0 in
  (* Scene 2: Dolly towards glove *)
  let tl := Gsap.to tl (Gsap.ToPosition None None (Some 2.5)) 1.5 "power2.inOut" 1 in
  let tl := Gsap.to tl (Gsap.ToRotation None (Some 0.1) None) 1.5 "power2.inOut" 1 in
  (* Scene 3: Technology flow - orbit view *)
  let tl := Gsap.to tl (Gsap.ToPosition (Some 3) (Some 2) (Some 4)) 1 "power2.inOut" 2.5 in
  let tl := Gsap.to tl (Gsap.ToRotation (Some (-0.2)) (Some (-0.3)) None) 1 "power2.inOut" 2.5 in
  (* Scene 4: Impact - pull back *)
  let tl := Gsap.to tl (Gsap.ToPosition (Some 0) (Some 1) (Some 6)) 1 "power2.out" 3.5 in
  let tl := Gsap.to tl (Gsap.ToRotation (Some 0) (Some 0) None) 1 "power2.out" 3.5 in
  (* Scene 5: Closing - final position *)
  let tl := Gsap.to tl (Gsap.ToPosition (Some 0) (Some 0.5) (Some 4)) 0.5 "power2.inOut" 4.5 in
  tl.

Definition useScrollAnimation (camera : option Gsap.Camera)
    (onSceneChange : option (Callback S)) : option (Engine S) :=
  match camera with
  | None => None                      (* if (!camera) return; *)
  | Some c =>
      Some {| timeline := buildTimeline;
              pose0 := c;
              handler := onUpdate onSceneChange |}
  end.

End WithConsumer.

End ScrollAnimation.

(** ** A consumer that records every invocation of its callback *)

Definition Calls : Type := list Z.

Definition record : Callback Calls := fun sceneIndex calls => calls ++ [sceneIndex].

Definition camera0 : Gsap.Camera :=
  {| Gsap.cam_position := (0, 0, 5)%Q; Gsap.cam_rotation := (0, 0, 0)%Q; Gsap.cam_fov := 50%Q |}.

Definition world0 : World Calls := {| cam := Some camera0; consumer := [] |}.

(** ** Easing and range helpers ([easing], [mapRange], [clamp])

    [Math.pow(x, n)] with a literal natural exponent is the power [x ^ n];
    [Math.pow(2, y)] is [Rpower 2 y]; [Math.PI] is [PI]. *)

Module Animations.

Local Open Scope R_scope.

(** Smooth, natural easing *)
Definition easeInOutCubic (t : R) : R :=
  if Rlt_dec t 0.5 then 4 * t * t * t else 1 - (-2 * t + 2) ^ 3 / 2.

(** Gentle start, smooth end *)
Definition easeOutQuart (t : R) : R :=
  1 - (1 - t) ^ 4.

(** Cinematic camera movement *)
Definition easeInOutQuint (t : R) : R :=
  if Rlt_dec t 0.5 then 16 * t * t * t * t * t else 1 - (-2 * t + 2) ^ 5 / 2.

(** Elastic for subtle bounce *)
Definition easeOutElastic (t : R) : R :=
  let c4 := (2 * PI) / 3 in
  if Req_dec_T t 0 then 0
  else if Req_dec_T t 1 then 1
  else Rpower 2 (-10 * t) * sin ((t * 10 - 0.75) * c4) + 1.

(** The [easing] object, as its entries in source order. *)
Definition easing : list (string * (R -> R)) :=
  [ ("easeInOutCubic"%string, easeInOutCubic);
    ("easeOutQuart"%string, easeOutQuart);
    ("easeInOutQuint"%string, easeInOutQuint);
    ("easeOutElastic"%string, easeOutElastic) ].

(** Map scroll progress to scene-specific progress *)
Definition mapRange (value inMin inMax outMin outMax : R) : R :=
  ((value - inMin) * (outMax - outMin)) / (inMax - inMin) + outMin.

(** Clamp value between min and max *)
Definition clamp (value min max : R) : R :=
  Rmin (Rmax value min) max.

End Animations.

(** ** Properties the specification asks for, as predicates *)

Module Spec.
Import Config.

(** Contract of an easing function: it maps [[0,1]] into [[0,1]], is
    monotonic there, and fixes both endpoints. *)
Definition EasingContract (f : R -> R) : Prop :=
  ((forall t, 0 <= t <= 1 -> 0 <= f t <= 1) /\
   (forall x y, 0 <= x -> x <= y -> y <= 1 -> f x <= f y) /\
   f 0 = 0 /\ f 1 = 1)%R.

(** Each segment ends where the next one starts. *)
Fixpoint contiguous (scenes : list SceneConfig) : bool :=
  match scenes with
  | a :: (b :: _) as rest => Qeq_bool (scrollEnd a) (scrollStart b) && contiguous rest
  | _ => true
  end.

(** A configuration that construction-time validation would accept:
    every segment has [start < end], and the segments are contiguous. *)
Definition wellFormed (scenes : list SceneConfig) : bool :=
  forallb (fun s => Js.ltb (scrollStart s) (scrollEnd s)) scenes && contiguous scenes.

(** A configuration with an inverted first segment that also overlaps
    the second one. *)
Definition brokenTimeline : list SceneConfig :=
  [ {| id := "a"; name := "A"; scrollStart := 0.5; scrollEnd := 0.2; duration := 1;
       camera := {|
         start := {| position := (0, 0, 5); rotation := (0, 0, 0); fov := None |};
         end_ := {| position := (0, 0, 4); rotation := (0, 0, 0); fov := None |} |};
       easing := "none"; description := "inverted range" |};
    {| id := "b"; name := "B"; scrollStart := 0; scrollEnd := 1; duration := 1;
       camera := {|
         start := {| position := (0, 0, 5); rotation := (0, 0, 0); fov := None |};
         end_ := {| position := (0, 0, 3); rotation := (0, 0, 0); fov := None |} |};
       easing := "none"; description := "overlaps the first" |} ]%Q.

End Spec.

(** ** The consumer in the application's [Scene] component

    [onSceneChange: (scene) => { setCurrentScene(scene);
                                 setScrollProgress((scene - 1) / 4); }] *)

Record SceneState : Type := {
  currentScene : Z;
  scrollProgress : Q
}.

Definition sceneOnSceneChange : Callback SceneState :=
  fun scene _ =>
    {| currentScene := scene;
       scrollProgress := (inject_Z scene - 1) / 4 |}.

(** ** Derived notions used in the statements *)

(** Whether the controller's scan finds a segment for [p], the test
    [currentScene !== -1] of its [onUpdate]. *)
Definition resolves (scenes : list Config.SceneConfig) (p : Q) : bool :=
  negb (CameraController.currentScene scenes p =? -1)%Z.

(** Component-wise equality of two vectors of numbers. *)
Definition vecEq (a b : Q * Q * Q) : Prop :=
  let '(a1, a2, a3) := a in
  let '(b1, b2, b3) := b in
  (a1 == b1 /\ a2 == b2 /\ a3 == b3)%Q.

(** The timeline the controller builds from the shipped configuration. *)
Definition shippedTimeline : Gsap.Timeline :=
  CameraController.buildTimeline Config.SCENE_TIMELINE.

(** The position tween of the second segment, as [addScene] creates it. *)
Definition gestureFlowTween : Gsap.Tween :=
  {| Gsap.vars := Gsap.ToPosition (Some 0) (Some 0.2) (Some 2.8);
     Gsap.tw_duration := 2.0;
     Gsap.tw_ease := "power1.inOut";
     Gsap.tw_at := 1.2 |}%Q.

(** The common shape of the two [easeInOut] entries of the easing table,
    for exponent [S m]: [(2t)^(S m) / 2] below one half, mirrored above. *)
Definition inOut (m : nat) (t : R) : R :=
  if Rlt_dec t 0.5 then ((2 * t) ^ S m / 2)%R else (1 - (-2 * t + 2) ^ S m / 2)%R.

(** ** WebGL capability detection
    ([detectWebGLCapabilities], [canHandleFullExperience],
    [getRecommendedQuality])

    The browser is an input: a canvas answers [getContext] for each of the
    three context names with a context or [null], and a context answers
    the queries the detection makes.  Strings are byte strings;
    [toLowerCase] lowers the ASCII letters. *)

Module WebGL.

Inductive Version : Type := V1 | V2.

Record WebGLCapabilities : Type := {
  supported : bool;
  version : option Version;          (* 1 | 2 | null *)
  maxTextureSize : Z;
  maxAnisotropy : Q;
  renderer : string
}.

(** What a rendering context answers. *)
Record Context : Type := {
  (* getExtension('WEBGL_debug_renderer_info'), and with it
     getParameter(UNMASKED_RENDERER_WEBGL) *)
  debugRenderer : option string;
  (* getParameter(MAX_TEXTURE_SIZE) *)
  MAX_TEXTURE_SIZE : Z;
  (* getExtension('EXT_texture_filter_anisotropic'), and with it
     getParameter(MAX_TEXTURE_MAX_ANISOTROPY_EXT) *)
  anisotropic : option Q
}.

(** What [canvas.getContext] answers for each name. *)
Record Canvas : Type := {
  webgl2 : option Context;
  webgl : option Context;
  experimental_webgl : option Context
}.

(** [a || b] on two possibly-null objects. *)
Definition orElse {A : Type} (a b : option A) : option A :=
  match a with
  | Some _ => a
  | None => b
  end.

Definition detectWebGLCapabilities (canvas : Canvas) : WebGLCapabilities :=
  (* Try WebGL 2 first *)
  let gl := webgl2 canvas in
  let version := Some V2 in
  (* Fallback to WebGL 1 *)
  let '(gl, version) :=
    match gl with
    | Some _ => (gl, version)
    | None =>
        let webgl1 := webgl canvas in
        let experimental := experimental_webgl canvas in
        let gl := orElse webgl1 experimental in
        (gl, match gl with Some _ => Some V1 | None => None end)
    end in
  match gl with
  | None =>
      {| supported := false;
         version := None;
         maxTextureSize := 0;
         maxAnisotropy := 0;
         renderer := "none" |}
  | Some gl =>
      (* Get capabilities *)
      let renderer :=
        match debugRenderer gl with
        | Some r => r
        | None => "Unknown"%string
        end in
      let maxTextureSize := MAX_TEXTURE_SIZE gl in
      (* Get max anisotropy *)
      let maxAnisotropy :=
        match anisotropic gl with
        | Some a => a
        | None => 1%Q
        end in
      {| supported := true;
         version := version;
         maxTextureSize := maxTextureSize;
         maxAnisotropy := maxAnisotropy;
         renderer := renderer |}
  end.

(** [String.prototype.toLowerCase] on ASCII. *)
Definition lowerAscii (c : Ascii.ascii) : Ascii.ascii :=
  let n := Ascii.nat_of_ascii c in
  if ((65 <=? n) && (n <=? 90))%nat then Ascii.ascii_of_nat (n + 32) else c.

Fixpoint toLowerCase (s : string) : string :=
  match s with
  | EmptyString => EmptyString
  | String c r => String (lowerAscii c) (toLowerCase r)
  end.

(** [s.includes(sub)] *)
Fixpoint includes (s sub : string) : bool :=
  String.prefix sub s
  || match s with
     | EmptyString => false
     | String _ r => includes r sub
     end.

Definition lowPowerIndicators : list string :=
  ["intel"; "integrated"; "swiftshader"]%string.

Definition isVersion2 (v : option Version) : bool :=
  match v with
  | Some V2 => true
  | _ => false
  end.

Definition canHandleFullExperience (capabilities : WebGLCapabilities) : bool :=
  if negb (supported capabilities) then false
  else if negb (isVersion2 (version capabilities)) then false
  else if (maxTextureSize capabilities <? 4096)%Z then false
  else
    (* Check for known low-power GPUs *)
    let isLowPower :=
      existsb (fun indicator => includes (toLowerCase (renderer capabilities)) indicator)
        lowPowerIndicators in
    negb isLowPower.

Record Quality : Type := {
  dpr : Q * Q;
  shadows : bool;
  postProcessing : bool;
  particleCount : Z
}.

Definition getRecommendedQuality (capabilities : WebGLCapabilities) : Quality :=
  if negb (supported capabilities) then
    {| dpr := (1, 1)%Q; shadows := false; postProcessing := false; particleCount := 0 |}
  else
    let canHandleFull := canHandleFullExperience capabilities in
    if canHandleFull then
      {| dpr := (1, 2)%Q; shadows := true; postProcessing := true; particleCount := 1000 |}
    else
      (* Medium quality for WebGL 1 or lower-end devices *)
      {| dpr := (1, 1.5)%Q; shadows := false; postProcessing := false; particleCount := 500 |}.

End WebGL.

(** ** The [useResponsive] hook *)

Module Responsive.

Record ResponsiveBreakpoint : Type := {
  isMobile : bool;
  isTablet : bool;
  isDesktop : bool;
  width : Z
}.

(** The state before the effect has run; [innerWidth] is [None] when
    there is no [window]. *)
Definition initialBreakpoint (innerWidth : option Z) : ResponsiveBreakpoint :=
  {| isMobile := false;
     isTablet := false;
     isDesktop := true;
     width := match innerWidth with Some w => w | None => 1920%Z end |}.

(** The state [handleResize] sets when [window.innerWidth] is [innerWidth]. *)
Definition handleResize (innerWidth : Z) : ResponsiveBreakpoint :=
  let width := innerWidth in
  {| isMobile := (width <? 768)%Z;
     isTablet := (768 <=? width)%Z && (width <? 1200)%Z;
     isDesktop := (1200 <=? width)%Z;
     width := width |}.

(** The state after the effect has run with the window [mounted] pixels
    wide and the window has then been resized through the widths
    [resizes]: the effect calls [handleResize] once, and so does every
    resize event. *)
Definition useResponsive (mounted : Z) (resizes : list Z) : ResponsiveBreakpoint :=
  fold_left (fun _ w => handleResize w) resizes (handleResize mounted).

(** [dpr={isMobile ? [1, 1.5] : [1, 2]}] of the application's canvas. *)
Definition canvasDpr (b : ResponsiveBreakpoint) : Q * Q :=
  if isMobile b then (1, 1.5)%Q else (1, 2)%Q.

End Responsive.

(** ** The per-frame motion of the glove ([useFrame] callbacks)

    Over the reals, as the callbacks call [Math.sin] and [Math.cos]. *)

Module Glove.

Local Open Scope R_scope.

(** The animated [THREE.Group]: its position and rotation. *)
Record Group : Type := {
  position_x : R; position_y : R; position_z : R;
  rotation_x : R; rotation_y : R; rotation_z : R
}.

(** [src/3d/models/GloveModel.tsx]: the frame callback at clock time
    [time], on a mounted group. *)
Definition frame (time : R) (g : Group) : Group :=
  {| position_x := position_x g;
     (* Subtle floating with breathing rhythm *)
     position_y := sin (time * 0.4) * 0.08 + cos (time * 0.6) * 0.03;
     position_z := position_z g;
     (* Very subtle tilt for organic feel *)
     rotation_x := sin (time * 0.3) * 0.02;
     (* Smooth Y-axis rotation with slight variation *)
     rotation_y := rotation_y g + (0.003 + sin (time * 0.1) * 0.001);
     rotation_z := rotation_z g |}.

(** [src/components/GloveModel.tsx]: the frame callback of the earlier
    component. *)
Definition legacyFrame (time : R) (g : Group) : Group :=
  {| position_x := position_x g;
     position_y := sin (time * 0.5) * 0.1;
     position_z := position_z g;
     rotation_x := rotation_x g;
     rotation_y := rotation_y g + 0.005;
     rotation_z := rotation_z g |}.

(** [if (groupRef.current) { ... }] *)
Definition useFrame (step : R -> Group -> Group) (time : R) (current : option Group)
    : option Group :=
  match current with
  | Some g => Some (step time g)
  | None => None
  end.

(** The group after the frames rendered at the clock times [times]. *)
Definition frames (step : R -> Group -> Group) (times : list R) (g : Group) : Group :=
  fold_left (fun g time => step time g) times g.

(** [emissiveIntensity] of the two sensor glow meshes. *)
Definition emissiveIntensity1 (scrollProgress : R) : R :=
  0.5 + sin (scrollProgress * 10) * 0.3.
Definition emissiveIntensity2 (scrollProgress : R) : R :=
  0.5 + sin (scrollProgress * 10 + 1) * 0.3.

End Glove.

(** ** Further notions used in the statements *)

(** The state the application's [Scene] component starts from:
    [useState(1)] and [useState(0)]. *)
Definition sceneState0 : SceneState :=
  {| currentScene := 1; scrollProgress := 0 |}.

(** [cumulativeDuration] after the scenes [scenes]. *)
Definition sumDurations (scenes : list Config.SceneConfig) : Q :=
  fold_left (fun acc scene => (acc + Config.duration scene)%Q) scenes 0%Q.

(** [if (cameraConfig.end.fov)]: the scene animates the field of view. *)
Definition animatesFov (scene : Config.SceneConfig) : bool :=
  match Config.fov (Config.end_ (Config.camera scene)) with
  | Some f => negb (Qeq_bool f 0)
  | None => false
  end.

(** The tweens one pass of the [forEach] body adds for [scene] when
    [cumulativeDuration] is [at_]. *)
Definition sceneTweens (scene : Config.SceneConfig) (at_ : Q) : Gsap.Timeline :=
  fst (CameraController.addScene ([], at_) scene).

(** The tween towards the end position of [scene], placed at [at_], and
    the one towards its end rotation. *)
Definition positionTween (scene : Config.SceneConfig) (at_ : Q) : Gsap.Tween :=
  let '(x, y, z) := Config.position (Config.end_ (Config.camera scene)) in
  {| Gsap.vars := Gsap.ToPosition (Some x) (Some y) (Some z);
     Gsap.tw_duration := Config.duration scene;
     Gsap.tw_ease := Config.easing scene;
     Gsap.tw_at := at_ |}.

Definition rotationTween (scene : Config.SceneConfig) (at_ : Q) : Gsap.Tween :=
  let '(x, y, z) := Config.rotation (Config.end_ (Config.camera scene)) in
  {| Gsap.vars := Gsap.ToRotation (Some x) (Some y) (Some z);
     Gsap.tw_duration := Config.duration scene;
     Gsap.tw_ease := Config.easing scene;
     Gsap.tw_at := at_ |}.

(** The world the application starts in, with camera [c]. *)
Definition sceneWorld (c : Gsap.Camera) : World SceneState :=
  {| cam := Some c; consumer := sceneState0 |}.

(** * Facts *)

Unset Implicit Arguments.

(** ** Comparisons and [findIndex] *)

Lemma ltb_true (a b : Q) : Js.ltb a b = true <-> (a < b)%Q.
Proof.
  unfold Js.ltb. rewrite negb_true_iff, <- not_true_iff_false, Qle_bool_iff.
  split; [apply Qnot_le_lt | apply Qlt_not_le].
Qed.

Lemma ltb_false (a b : Q) : Js.ltb a b = false <-> (b <= a)%Q.
Proof. unfold Js.ltb. rewrite negb_false_iff. apply Qle_bool_iff. Qed.

Lemma geb_true (a b : Q) : Js.geb a b = true <-> (b <= a)%Q.
Proof. apply Qle_bool_iff. Qed.

Lemma geb_false (a b : Q) : Js.geb a b = false <-> (a < b)%Q.
Proof.
  unfold Js.geb. rewrite <- not_true_iff_false, Qle_bool_iff.
  split; [apply Qnot_le_lt | apply Qlt_not_le].
Qed.

(** Split on every comparison in the goal and turn the outcomes into
    order facts. *)
Ltac cmp_cases :=
  repeat match goal with
    | |- context [Js.ltb ?a ?b] =>
        let E := fresh "E" in
        destruct (Js.ltb a b) eqn:E;
        [apply ltb_true in E | apply ltb_false in E]
    | |- context [Js.geb ?a ?b] =>
        let E := fresh "E" in
        destruct (Js.geb a b) eqn:E;
        [apply geb_true in E | apply geb_false in E]
    end.

(** [findIndex] returns [-1] exactly when no element satisfies the
    predicate. *)
Lemma findIndex_none {A : Type} (f : A -> bool) (l : list A) :
  Js.findIndex f l = (-1)%Z <-> forallb (fun x => negb (f x)) l = true.
Proof.
  unfold Js.findIndex.
  assert (G : forall l i, (0 <= i)%Z ->
            (Js.findIndexFrom f l i = (-1)%Z <-> forallb (fun x => negb (f x)) l = true)).
  { clear. induction l as [|x r IH]; intros i Hi; cbn; [tauto|].
    destruct (f x); cbn; [split; [lia | discriminate] | apply IH; lia]. }
  apply G; lia.
Qed.

(** ** Scene bucketing *)

Section Bucketing.
Import Config.

Lemma legacy_onUpdate_sceneOf (S : Type) (cb : option (Callback S)) (p : Q) (s : S) :
  ScrollAnimation.onUpdate cb p s = ScrollAnimation.callOpt cb (ScrollAnimation.sceneOf p) s.
Proof.
  unfold ScrollAnimation.onUpdate, ScrollAnimation.sceneOf.
  repeat match goal with |- context [Js.ltb ?a ?b] => destruct (Js.ltb a b) end;
    reflexivity.
Qed.

(** On [[0,1)] the [findIndex] scan lands one below the scene number of
    the threshold chain. *)
Lemma currentScene_sceneOf (p : Q) :
  (0 <= p)%Q -> (p < 1)%Q ->
  CameraController.currentScene SCENE_TIMELINE p = (ScrollAnimation.sceneOf p - 1)%Z.
Proof.
  intros H0 H1.
  unfold CameraController.currentScene, Js.findIndex, ScrollAnimation.sceneOf,
    SCENE_TIMELINE, CameraController.inScene.
  cbn [Js.findIndexFrom scrollStart scrollEnd].
  cmp_cases; cbn; try reflexivity; exfalso; lra.
Qed.

(** Segments of the shipped timeline do not overlap: whichever segment
    contains [p] is the one the scan returns. *)
Lemma inScene_unique (p : Q) (i : nat) (scene : SceneConfig) :
  nth_error SCENE_TIMELINE i = Some scene ->
  CameraController.inScene p scene = true ->
  Z.of_nat i = CameraController.currentScene SCENE_TIMELINE p.
Proof.
  intros Hn Hin.
  unfold CameraController.inScene in Hin. apply andb_true_iff in Hin.
  destruct Hin as [Hs He]. apply geb_true in Hs. apply ltb_true in He.
  unfold CameraController.currentScene, Js.findIndex, SCENE_TIMELINE,
    CameraController.inScene.
  cbn [Js.findIndexFrom scrollStart scrollEnd].
  do 5 (destruct i as [|i]; [injection Hn as <-; cbn in Hs, He; cmp_cases; cbn;
                             try reflexivity; exfalso; lra|]).
  destruct i; discriminate.
Qed.

End Bucketing.

Section BucketingClaims.
Import Config.

Lemma currentScene_inScene (p : Q) :
  (0 <= p)%Q -> (p < 1)%Q ->
  exists scene,
    nth_error SCENE_TIMELINE (Z.to_nat (CameraController.currentScene SCENE_TIMELINE p))
      = Some scene
    /\ CameraController.inScene p scene = true.
Proof.
  intros H0 H1.
  unfold CameraController.currentScene, Js.findIndex, SCENE_TIMELINE.
  cbn [Js.findIndexFrom].
  repeat match goal with
    | |- context [if CameraController.inScene p ?s then _ else _] =>
        let E := fresh "E" in
        destruct (CameraController.inScene p s) eqn:E;
        [eexists; split; [reflexivity | exact E]|]
    end.
  exfalso.
  unfold CameraController.inScene in *. cbn [scrollStart scrollEnd] in *.
  repeat match goal with
    | H : (_ && _)%bool = false |- _ =>
        apply andb_false_iff in H; destruct H as [H|H];
        [apply geb_false in H | apply ltb_false in H]
    end; lra.
Qed.

(** C9: for every progress value [0 <= p < 1] the scene number of the
    legacy hook's threshold chain is one more than the index returned by
    the controller's [findIndex] scan over [SCENE_TIMELINE]; that index
    designates a segment with [scrollStart <= p < scrollEnd], no other
    segment has this property, and the two [onUpdate] handlers act alike
    on every consumer. *)
Theorem legacy_chain_matches_findIndex (p : Q) :
  (0 <= p)%Q -> (p < 1)%Q ->
  ScrollAnimation.sceneOf p = (CameraController.currentScene SCENE_TIMELINE p + 1)%Z
  /\ (exists scene,
        nth_error SCENE_TIMELINE
          (Z.to_nat (CameraController.currentScene SCENE_TIMELINE p)) = Some scene
        /\ CameraController.inScene p scene = true)
  /\ (forall i scene,
        nth_error SCENE_TIMELINE i = Some scene ->
        CameraController.inScene p scene = true ->
        Z.of_nat i = CameraController.currentScene SCENE_TIMELINE p)
  /\ (forall (S : Type) (cb : option (Callback S)) (s : S),
        ScrollAnimation.onUpdate cb p s
        = CameraController.onUpdate SCENE_TIMELINE cb p s).
Proof.
  intros H0 H1.
  pose proof (currentScene_sceneOf p H0 H1) as Hc.
  repeat split.
  - lia.
  - now apply currentScene_inScene.
  - intros i scene. apply inScene_unique.
  - intros S cb s. rewrite legacy_onUpdate_sceneOf.
    unfold CameraController.onUpdate. rewrite Hc.
    assert (Hs : (1 <= ScrollAnimation.sceneOf p)%Z).
    { unfold ScrollAnimation.sceneOf.
      repeat match goal with |- context [Js.ltb ?a ?b] => destruct (Js.ltb a b) end; lia. }
    destruct (ScrollAnimation.sceneOf p - 1 =? -1)%Z eqn:E.
    + apply Z.eqb_eq in E. lia.
    + cbn [negb]. replace (ScrollAnimation.sceneOf p - 1 + 1)%Z
        with (ScrollAnimation.sceneOf p) by lia.
      reflexivity.
Qed.

Lemma legacy_chain_matches_findIndex_witness :
  ScrollAnimation.sceneOf 0.35 = (CameraController.currentScene SCENE_TIMELINE 0.35 + 1)%Z.
Proof.
  apply (legacy_chain_matches_findIndex 0.35%Q).
  - unfold Qle; cbn; lia.
  - reflexivity.
Defined.

(** The three structural facts of the coverage invariant hold for the
    shipped timeline. *)
Lemma timeline_contiguous :
  option_map scrollStart (hd_error SCENE_TIMELINE) = Some 0%Q
  /\ option_map scrollEnd (hd_error (rev SCENE_TIMELINE)) = Some 1.0%Q
  /\ (forall i a b,
        nth_error SCENE_TIMELINE i = Some a ->
        nth_error SCENE_TIMELINE (Datatypes.S i) = Some b ->
        scrollEnd a = scrollStart b).
Proof.
  repeat split.
  intros i a b Ha Hb.
  do 4 (destruct i as [|i]; [injection Ha as <-; injection Hb as <-; reflexivity|]).
  destruct i; discriminate.
Qed.

(** Below [1] the segments leave no gap and do not overlap. *)
Lemma coverage_below_one (p : Q) :
  (0 <= p)%Q -> (p < 1)%Q ->
  List.length (filter (CameraController.inScene p) SCENE_TIMELINE) = 1%nat.
Proof.
  intros H0 H1.
  unfold SCENE_TIMELINE, CameraController.inScene.
  cbn [filter scrollStart scrollEnd].
  cmp_cases; cbn; try reflexivity; exfalso; lra.
Qed.

(** C4: the shipped timeline starts at 0, ends at 1 and is contiguous,
    yet at [p = 1] no segment satisfies the test of the scan, so the
    coverage of [[0,1]] has a hole at its right end. *)
Theorem coverage_misses_progress_one :
  option_map scrollStart (hd_error SCENE_TIMELINE) = Some 0%Q
  /\ option_map scrollEnd (hd_error (rev SCENE_TIMELINE)) = Some 1.0%Q
  /\ Spec.contiguous SCENE_TIMELINE = true
  /\ filter (CameraController.inScene 1) SCENE_TIMELINE = [].
Proof. repeat split. Qed.

(** Interior boundaries belong to the segment that starts there. *)
Lemma interior_boundaries_right_open :
  map (CameraController.currentScene SCENE_TIMELINE) [0; 0.2; 0.5; 0.7; 0.9]%Q
  = [0; 1; 2; 3; 4]%Z.
Proof. reflexivity. Qed.

(** C2: at [p = 1] the controller's scan finds no segment and its
    [onUpdate] leaves every consumer untouched, so no scene index is
    reported, whereas the legacy hook reports scene 5 there. *)
Theorem progress_one_reports_no_scene :
  CameraController.currentScene SCENE_TIMELINE 1 = (-1)%Z
  /\ (forall (S : Type) (cb : option (Callback S)) (s : S),
        CameraController.onUpdate SCENE_TIMELINE cb 1 s = s)
  /\ consumer (run (CameraController.useCameraController (Some camera0) (Some record))
                 [1%Q] world0) = []
  /\ consumer (run (ScrollAnimation.useScrollAnimation (Some camera0) (Some record))
                 [1%Q] world0) = [5%Z].
Proof. repeat split. Qed.

End BucketingClaims.

(** ** Progress notifications *)

Section Notifications.
Import Config.

Lemma run_cons (S : Type) (e : option (Engine S)) (p : Q) (ps : list Q) (w : World S) :
  run e (p :: ps) w = run e ps (notify e w p).
Proof. reflexivity. Qed.

Lemma run_detached (S : Type) (ps : list Q) (w : World S) :
  run None ps w = w.
Proof. induction ps as [|p ps IH]; [reflexivity | rewrite run_cons; exact IH]. Qed.

Lemma controller_calls (scenes : list SceneConfig) (c : Gsap.Camera)
    (ps : list Q) (w : World Calls) :
  consumer (run (CameraController.effect scenes (Some c) (Some record)) ps w)
  = consumer w
      ++ map (fun p => (CameraController.currentScene scenes p + 1)%Z)
           (filter (resolves scenes) ps).
Proof.
  revert w. induction ps as [|p ps IH]; intros w.
  - cbn. now rewrite app_nil_r.
  - rewrite run_cons, IH. cbn [filter notify consumer CameraController.effect handler].
    unfold CameraController.onUpdate, resolves.
    destruct (negb (CameraController.currentScene scenes p =? -1)%Z).
    + unfold record. cbn [map]. now rewrite <- app_assoc.
    + reflexivity.
Qed.

Lemma legacy_calls (c : Gsap.Camera) (ps : list Q) (w : World Calls) :
  consumer (run (ScrollAnimation.useScrollAnimation (Some c) (Some record)) ps w)
  = consumer w ++ map ScrollAnimation.sceneOf ps.
Proof.
  revert w. induction ps as [|p ps IH]; intros w.
  - cbn. now rewrite app_nil_r.
  - rewrite run_cons, IH.
    cbn [notify consumer ScrollAnimation.useScrollAnimation handler map].
    rewrite legacy_onUpdate_sceneOf. unfold ScrollAnimation.callOpt, record.
    now rewrite <- app_assoc.
Qed.

(** C1, as the code has it: while attached, every progress update whose
    value lies in some segment invokes the callback once with that
    segment's 1-based index, repeated values and values of the same
    segment included; updates that resolve to no segment invoke nothing.
    The legacy hook invokes it on every update. *)
Theorem callback_fires_on_every_resolved_update
    (c : Gsap.Camera) (ps : list Q) (w : World Calls) :
  consumer (run (CameraController.useCameraController (Some c) (Some record)) ps w)
  = consumer w
      ++ map (fun p => (CameraController.currentScene SCENE_TIMELINE p + 1)%Z)
           (filter (resolves SCENE_TIMELINE) ps)
  /\ consumer (run (ScrollAnimation.useScrollAnimation (Some c) (Some record)) ps w)
     = consumer w ++ map ScrollAnimation.sceneOf ps.
Proof. split; [apply controller_calls | apply legacy_calls]. Qed.

(** C1 refuted: the same progress value delivered twice, or two values of
    the same segment, invoke the callback twice with the same index. *)
Lemma repeated_progress_fires_again :
  consumer (run (CameraController.useCameraController (Some camera0) (Some record))
              [0.1; 0.1]%Q world0) = [1; 1]%Z
  /\ consumer (run (CameraController.useCameraController (Some camera0) (Some record))
                 [0.1; 0.15]%Q world0) = [1; 1]%Z
  /\ consumer (run (ScrollAnimation.useScrollAnimation (Some camera0) (Some record))
                 [0.1; 0.1]%Q world0) = [1; 1]%Z.
Proof. repeat split. Qed.

(** The application's callback overwrites its state, so an invocation
    repeated with the same index changes nothing further. *)
Lemma sceneOnSceneChange_idempotent (k : Z) (s : SceneState) :
  sceneOnSceneChange k (sceneOnSceneChange k s) = sceneOnSceneChange k s.
Proof. reflexivity. Qed.

(** C6: with a null camera neither hook builds a timeline or registers a
    handler, and any sequence of progress notifications leaves the world
    as it was: the camera is not mutated and the callback never runs. *)
Theorem null_camera_is_inert (S : Type) (cb : option (Callback S))
    (ps : list Q) (w : World S) :
  CameraController.useCameraController None cb = None
  /\ ScrollAnimation.useScrollAnimation None cb = None
  /\ run (CameraController.useCameraController None cb) ps w = w
  /\ run (ScrollAnimation.useScrollAnimation None cb) ps w = w.
Proof. repeat split; apply run_detached. Qed.

(** C5, as the code has it: for a non-null camera the effect builds its
    timeline from whatever configuration it is given and never rejects
    one; the shipped configuration happens to be well formed. *)
Theorem effect_accepts_every_configuration (S : Type) (scenes : list SceneConfig)
    (c : Gsap.Camera) (cb : option (Callback S)) :
  CameraController.effect scenes (Some c) cb
  = Some {| timeline := CameraController.buildTimeline scenes;
            pose0 := c;
            handler := CameraController.onUpdate scenes cb |}
  /\ Spec.wellFormed SCENE_TIMELINE = true.
Proof. split; reflexivity. Qed.

(** C5 refuted: a configuration with an inverted segment that overlaps
    its neighbour is not well formed, yet the effect attaches to it and
    the next update runs on it without complaint. *)
Lemma broken_configuration_is_accepted :
  Spec.wellFormed Spec.brokenTimeline = false
  /\ CameraController.effect Spec.brokenTimeline (Some camera0) (Some record) <> None
  /\ consumer (run (CameraController.effect Spec.brokenTimeline (Some camera0) (Some record))
                 [0.3]%Q world0) = [2%Z].
Proof. repeat split. discriminate. Qed.

(** C7: adjacent segments of the shipped timeline share their boundary
    keyframe: the end keyframe of segment [i] (position, rotation and
    optional fov) is the start keyframe of segment [i+1]. *)
Theorem adjacent_keyframes_shared (i : nat) (a b : SceneConfig) :
  nth_error SCENE_TIMELINE i = Some a ->
  nth_error SCENE_TIMELINE (Datatypes.S i) = Some b ->
  end_ (camera a) = start (camera b).
Proof.
  intros Ha Hb.
  do 4 (destruct i as [|i]; [injection Ha as <-; injection Hb as <-; reflexivity|]).
  destruct i; discriminate.
Qed.

Lemma adjacent_keyframes_shared_witness :
  exists a b,
    nth_error SCENE_TIMELINE 1 = Some a
    /\ nth_error SCENE_TIMELINE 2 = Some b
    /\ end_ (camera a) = start (camera b).
Proof.
  eexists; eexists.
  split; [reflexivity|]. split; [reflexivity|].
  apply (adjacent_keyframes_shared 1); reflexivity.
Defined.

End Notifications.

(** ** Camera pose under the scrubbed timeline *)

Section Pose.
Import Config.

(** Evaluate a pose for a symbolic starting camera: all comparisons and
    eased fractions are closed and compute; the interpolations stay. *)
Ltac pose_eval c :=
  destruct c as [[[? ?] ?] [[? ?] ?] ?];
  cbv -[Gsap.lerp Qeq]; unfold Gsap.lerp.

Lemma shipped_total_duration : (Gsap.totalDuration shippedTimeline == 6.8)%Q.
Proof. reflexivity. Qed.

(** C3, as the code has it: the segment with scroll range [0.2, 0.5)
    and positions [0,0,5] to [0,0.2,2.8] yields a position tween
    towards [0,0.2,2.8] placed at timeline time 1.2 for 2.0 time units
    with ease power1.inOut; at progress 0.35 the playhead is at 2.38 of
    6.8, the tween's elapsed fraction is 0.59, and the camera position
    is [0, 0.13276, 3.53964] whatever pose the camera started from. *)
Theorem pose_at_035_follows_tween_durations (c : Gsap.Camera) :
  (exists scene,
      nth_error SCENE_TIMELINE 1 = Some scene
      /\ scrollStart scene = 0.2%Q /\ scrollEnd scene = 0.5%Q
      /\ position (start (camera scene)) = (0, 0, 5)%Q
      /\ position (end_ (camera scene)) = (0, 0.2, 2.8)%Q)
  /\ nth_error shippedTimeline 2 = Some gestureFlowTween
  /\ (0.35 * Gsap.totalDuration shippedTimeline == 2.38)%Q
  /\ (Gsap.ratio gestureFlowTween (0.35 * Gsap.totalDuration shippedTimeline) == 0.59)%Q
  /\ vecEq (Gsap.cam_position (Gsap.scrubbed shippedTimeline 0.35 c))
       (0, 0.13276, 3.53964)%Q.
Proof.
  split; [eexists; repeat split|].
  split; [reflexivity|].
  split; [reflexivity|].
  split; [reflexivity|].
  pose_eval c. repeat split; lra.
Qed.

(** C3 refuted: at progress 0.35 the elapsed fraction of the segment's
    tween is not 0.5 and the camera is not at the linear midpoint
    [0, 0.1, 3.9]. *)
Lemma pose_at_035_is_not_the_midpoint :
  ~ (Gsap.ratio gestureFlowTween (0.35 * Gsap.totalDuration shippedTimeline) == 0.5)%Q
  /\ ~ vecEq (Gsap.cam_position (Gsap.scrubbed shippedTimeline 0.35 camera0))
         (0, 0.1, 3.9)%Q.
Proof.
  split.
  - intros H. vm_compute in H. discriminate H.
  - intros H. vm_compute in H. destruct H as [_ [H _]]. discriminate H.
Qed.

(** At progress 1 every tween has run to its end: the pose is the end
    keyframe of the last segment. *)
Lemma pose_at_one_is_final_keyframe (c : Gsap.Camera) :
  vecEq (Gsap.cam_position (Gsap.scrubbed shippedTimeline 1 c)) (0, 0.3, 4.5)%Q
  /\ vecEq (Gsap.cam_rotation (Gsap.scrubbed shippedTimeline 1 c)) (0, 0, 0)%Q
  /\ Gsap.cam_fov (Gsap.scrubbed shippedTimeline 1 c) = Gsap.cam_fov c.
Proof.
  pose_eval c. repeat split; lra.
Qed.

(** When the playhead reaches the end of a segment's tweens the pose is
    that segment's end keyframe, which is the next segment's start
    keyframe: the pose has no jump where one segment hands over to the
    next. *)
Lemma pose_at_segment_ends (c : Gsap.Camera) :
  (vecEq (Gsap.cam_position (Gsap.render shippedTimeline 1.2 c)) (0, 0, 5)
   /\ vecEq (Gsap.cam_rotation (Gsap.render shippedTimeline 1.2 c)) (0, 0, 0))
  /\ (vecEq (Gsap.cam_position (Gsap.render shippedTimeline 3.2 c)) (0, 0.2, 2.8)
      /\ vecEq (Gsap.cam_rotation (Gsap.render shippedTimeline 3.2 c)) (0, 0.08, 0))
  /\ (vecEq (Gsap.cam_position (Gsap.render shippedTimeline 4.7 c)) (2.5, 1.5, 4)
      /\ vecEq (Gsap.cam_rotation (Gsap.render shippedTimeline 4.7 c)) (-0.15, -0.25, 0))
  /\ (vecEq (Gsap.cam_position (Gsap.render shippedTimeline 6.0 c)) (0, 0.8, 6)
      /\ vecEq (Gsap.cam_rotation (Gsap.render shippedTimeline 6.0 c)) (-0.05, 0, 0)).
Proof.
  pose_eval c. repeat split; lra.
Qed.

End Pose.

(** ** Easing functions and [clamp] *)

Section EasingFacts.
Import Animations.
Local Open Scope R_scope.

Lemma pow_unit (n : nat) (u : R) : 0 <= u <= 1 -> 0 <= u ^ n <= 1.
Proof.
  intros [H0 H1]. split; [now apply pow_le|].
  rewrite <- (pow1 n). apply pow_incr. lra.
Qed.

Lemma inOut_low (m : nat) (t : R) : 0 <= t -> t < 0.5 -> 0 <= inOut m t <= 1 / 2.
Proof.
  intros H0 H1. unfold inOut. destruct (Rlt_dec t 0.5); [|lra].
  pose proof (pow_unit (S m) (2 * t) ltac:(lra)). lra.
Qed.

Lemma inOut_high (m : nat) (t : R) : 0.5 <= t -> t <= 1 -> 1 / 2 <= inOut m t <= 1.
Proof.
  intros H0 H1. unfold inOut. destruct (Rlt_dec t 0.5); [lra|].
  pose proof (pow_unit (S m) (-2 * t + 2) ltac:(lra)). lra.
Qed.

Lemma inOut_range (m : nat) (t : R) : 0 <= t <= 1 -> 0 <= inOut m t <= 1.
Proof.
  intros H. destruct (Rlt_dec t 0.5).
  - pose proof (inOut_low m t ltac:(lra) ltac:(lra)). lra.
  - pose proof (inOut_high m t ltac:(lra) ltac:(lra)). lra.
Qed.

Lemma inOut_monotone (m : nat) (x y : R) :
  0 <= x -> x <= y -> y <= 1 -> inOut m x <= inOut m y.
Proof.
  intros Hx Hxy Hy.
  destruct (Rlt_dec x 0.5) as [Lx|Lx], (Rlt_dec y 0.5) as [Ly|Ly].
  - unfold inOut. destruct (Rlt_dec x 0.5), (Rlt_dec y 0.5); try lra.
    pose proof (pow_incr (2 * x) (2 * y) (S m) ltac:(lra)). lra.
  - pose proof (inOut_low m x ltac:(lra) ltac:(lra)).
    pose proof (inOut_high m y ltac:(lra) ltac:(lra)). lra.
  - lra.
  - unfold inOut. destruct (Rlt_dec x 0.5), (Rlt_dec y 0.5); try lra.
    pose proof (pow_incr (-2 * y + 2) (-2 * x + 2) (S m) ltac:(lra)). lra.
Qed.

Lemma inOut_contract (m : nat) : Spec.EasingContract (inOut m).
Proof.
  split; [apply inOut_range|]. split; [apply inOut_monotone|]. split.
  - unfold inOut. destruct (Rlt_dec 0 0.5); [|lra].
    rewrite Rmult_0_r, pow_ne_zero by discriminate. lra.
  - unfold inOut. destruct (Rlt_dec 1 0.5); [lra|].
    replace (-2 * 1 + 2) with 0 by lra.
    rewrite pow_ne_zero by discriminate. lra.
Qed.

Lemma contract_ext (f g : R -> R) :
  (forall t, f t = g t) -> Spec.EasingContract f -> Spec.EasingContract g.
Proof.
  intros E (Hr & Hm & H0 & H1).
  split; [intros t Ht; rewrite <- E; now apply Hr|].
  split; [intros x y ? ? ?; rewrite <- !E; now apply Hm|].
  split; now rewrite <- E.
Qed.

Lemma easeInOutCubic_contract : Spec.EasingContract easeInOutCubic.
Proof.
  apply (contract_ext (inOut 2)); [|apply inOut_contract].
  intros t. unfold inOut, easeInOutCubic. destruct (Rlt_dec t 0.5); [field | reflexivity].
Qed.

Lemma easeInOutQuint_contract : Spec.EasingContract easeInOutQuint.
Proof.
  apply (contract_ext (inOut 4)); [|apply inOut_contract].
  intros t. unfold inOut, easeInOutQuint. destruct (Rlt_dec t 0.5); [field | reflexivity].
Qed.

Lemma easeOutQuart_contract : Spec.EasingContract easeOutQuart.
Proof.
  unfold easeOutQuart. split; [|split; [|split]].
  - intros t Ht. pose proof (pow_unit 4 (1 - t) ltac:(lra)). lra.
  - intros x y Hx Hxy Hy.
    pose proof (pow_incr (1 - y) (1 - x) 4 ltac:(lra)). lra.
  - replace (1 - 0) with 1 by lra. rewrite pow1. lra.
  - replace (1 - 1) with 0 by lra. rewrite pow_ne_zero by discriminate. lra.
Qed.

Lemma easeOutElastic_endpoints : easeOutElastic 0 = 0 /\ easeOutElastic 1 = 1.
Proof.
  unfold easeOutElastic. split.
  - destruct (Req_dec_T 0 0); [reflexivity | contradiction].
  - destruct (Req_dec_T 1 0); [lra|].
    destruct (Req_dec_T 1 1); [reflexivity | contradiction].
Qed.

Lemma easeOutElastic_tenth : easeOutElastic (1 / 10) = 5 / 4.
Proof.
  unfold easeOutElastic.
  destruct (Req_dec_T (1 / 10) 0); [lra|].
  destruct (Req_dec_T (1 / 10) 1); [lra|].
  cbv zeta.
  assert (Ex : -10 * (1 / 10) = Ropp 1) by lra.
  assert (Ea : (1 / 10 * 10 - 0.75) * (2 * PI / 3) = PI / 6) by lra.
  rewrite Ex, Ea, Rpower_Ropp, Rpower_1, sin_PI6 by lra. lra.
Qed.

(** C8, as the code has it: [easeInOutCubic], [easeOutQuart] and
    [easeInOutQuint] are monotonic maps of [[0,1]] into [[0,1]] fixing 0
    and 1; [easeOutElastic] fixes 0 and 1 as well. *)
Theorem easing_table_contracts :
  Spec.EasingContract easeInOutCubic
  /\ Spec.EasingContract easeOutQuart
  /\ Spec.EasingContract easeInOutQuint
  /\ easeOutElastic 0 = 0 /\ easeOutElastic 1 = 1.
Proof.
  split; [apply easeInOutCubic_contract|].
  split; [apply easeOutQuart_contract|].
  split; [apply easeInOutQuint_contract|].
  apply easeOutElastic_endpoints.
Qed.

(** C8 refuted: [easeOutElastic] overshoots, [easeOutElastic(0.1) = 1.25],
    so it neither stays within [[0,1]] nor is monotonic, and not every
    entry of the easing table meets the contract. *)
Lemma easeOutElastic_overshoots :
  easeOutElastic (1 / 10) = 5 / 4
  /\ easeOutElastic 1 < easeOutElastic (1 / 10)
  /\ ~ Forall (fun entry => Spec.EasingContract (snd entry)) easing.
Proof.
  pose proof easeOutElastic_tenth as E.
  pose proof easeOutElastic_endpoints as [_ E1].
  split; [exact E|]. split; [lra|].
  intros H. unfold easing in H.
  repeat match goal with
    | H : Forall _ (_ :: _) |- _ => inversion H; clear H; subst
    end.
  match goal with
  | H : Spec.EasingContract (snd (_, easeOutElastic)) |- _ =>
      destruct H as (Hr & _); cbn [snd] in Hr;
      specialize (Hr (1 / 10) ltac:(lra)); lra
  end.
Qed.

(** C10: for [min <= max], [clamp value min max] lies in [[min, max]];
    it is [min] when [value < min], [max] when [value > max], and
    [value] itself when [min <= value <= max]. *)
Theorem clamp_within_bounds (value min max : R) :
  min <= max ->
  (min <= clamp value min max <= max)
  /\ (value < min -> clamp value min max = min)
  /\ (value > max -> clamp value min max = max)
  /\ (min <= value <= max -> clamp value min max = value).
Proof.
  intros H. unfold clamp, Rmin, Rmax.
  destruct (Rle_dec value min); destruct (Rle_dec _ max); repeat split; intros; lra.
Qed.

Lemma clamp_within_bounds_witness : clamp (3 / 2) 0 1 = 1.
Proof.
  apply (clamp_within_bounds (3 / 2) 0 1); lra.
Defined.

End EasingFacts.


(** ** More on [mapRange], [clamp] and the easing table *)

Section RangeFacts.
Import Animations.
Local Open Scope R_scope.

(** X1: with distinct input bounds, [mapRange] sends [inMin] to [outMin]
    and [inMax] to [outMax]. *)
Theorem mapRange_endpoints (inMin inMax outMin outMax : R) :
  inMin <> inMax ->
  mapRange inMin inMin inMax outMin outMax = outMin
  /\ mapRange inMax inMin inMax outMin outMax = outMax.
Proof.
  intros H. unfold mapRange. split; field; lra.
Qed.

Lemma mapRange_endpoints_witness :
  mapRange 0.2 0.2 0.5 0 1 = 0 /\ mapRange 0.5 0.2 0.5 0 1 = 1.
Proof. apply (mapRange_endpoints 0.2 0.5 0 1); lra. Defined.

(** X2: mapping a value into another range and back returns the value,
    provided neither range is degenerate. *)
Theorem mapRange_round_trip (value inMin inMax outMin outMax : R) :
  inMin <> inMax -> outMin <> outMax ->
  mapRange (mapRange value inMin inMax outMin outMax) outMin outMax inMin inMax = value.
Proof.
  intros H1 H2. unfold mapRange. field. lra.
Qed.

Lemma mapRange_round_trip_witness :
  mapRange (mapRange 0.35 0.2 0.5 0 1) 0 1 0.2 0.5 = 0.35.
Proof. apply (mapRange_round_trip 0.35 0.2 0.5 0 1); lra. Defined.

Lemma mapRange_affine (value inMin inMax outMin outMax : R) :
  inMin <> inMax ->
  mapRange value inMin inMax outMin outMax
  = outMin + (value - inMin) / (inMax - inMin) * (outMax - outMin).
Proof. intros H. unfold mapRange. field. lra. Qed.

Lemma fraction_bounds (value inMin inMax : R) :
  inMin < inMax -> inMin <= value <= inMax ->
  0 <= (value - inMin) / (inMax - inMin) <= 1.
Proof.
  intros H [Hl Hu]. split.
  - apply Rmult_le_pos; [lra|]. left. apply Rinv_0_lt_compat. lra.
  - apply (Rmult_le_reg_r (inMax - inMin)); [lra|].
    unfold Rdiv. rewrite Rmult_assoc, Rinv_l by lra. lra.
Qed.

(** X3: for [inMin < inMax] and [outMin <= outMax], [mapRange] is
    monotonic in its value and maps [[inMin, inMax]] into
    [[outMin, outMax]]. *)
Theorem mapRange_monotone_within_range (inMin inMax outMin outMax : R) :
  inMin < inMax -> outMin <= outMax ->
  (forall v w, v <= w ->
     mapRange v inMin inMax outMin outMax <= mapRange w inMin inMax outMin outMax)
  /\ (forall v, inMin <= v <= inMax ->
        outMin <= mapRange v inMin inMax outMin outMax <= outMax).
Proof.
  intros Hin Hout.
  assert (Hinv : 0 < / (inMax - inMin)) by (apply Rinv_0_lt_compat; lra).
  split.
  - intros v w Hvw. unfold mapRange, Rdiv.
    apply Rplus_le_compat_r. apply Rmult_le_compat_r; [lra|].
    apply Rmult_le_compat_r; lra.
  - intros v Hv. rewrite mapRange_affine by lra.
    pose proof (fraction_bounds v inMin inMax Hin Hv) as [F0 F1].
    set (f := (v - inMin) / (inMax - inMin)) in *. nra.
Qed.

Lemma mapRange_monotone_within_range_witness :
  0 <= mapRange 0.35 0.2 0.5 0 1 <= 1.
Proof.
  apply (mapRange_monotone_within_range 0.2 0.5 0 1); lra.
Defined.

(** Split on the comparisons of [Rmin] and [Rmax], innermost first. *)
Ltac rle_cases :=
  repeat match goal with
    | |- context [Rle_dec ?a ?b] =>
        lazymatch a with
        | context [Rle_dec _ _] => fail
        | _ => lazymatch b with
               | context [Rle_dec _ _] => fail
               | _ => destruct (Rle_dec a b)
               end
        end
    end.

Lemma clamp_cases (value min max : R) :
  clamp value min max
  = if Rle_dec max min then max
    else if Rle_dec value min then min
    else if Rle_dec max value then max else value.
Proof.
  unfold clamp, Rmin, Rmax.
  rle_cases; lra.
Qed.

(** X4: whatever the bounds, clamping is idempotent and monotonic in the
    value. *)
Theorem clamp_idempotent_monotone (min max : R) :
  (forall v, clamp (clamp v min max) min max = clamp v min max)
  /\ (forall v w, v <= w -> clamp v min max <= clamp w min max).
Proof.
  split.
  - intros v. unfold clamp, Rmin, Rmax. rle_cases; lra.
  - intros v w Hvw. unfold clamp, Rmin, Rmax. rle_cases; lra.
Qed.

(** X5: with inverted bounds, [max < min], the result is [max] for every
    value: the upper bound wins. *)
Theorem clamp_inverted_bounds (value min max : R) :
  max < min -> clamp value min max = max.
Proof.
  intros H. unfold clamp, Rmin, Rmax.
  rle_cases; lra.
Qed.

Lemma clamp_inverted_bounds_witness : clamp 0.5 1 0 = 0.
Proof. apply (clamp_inverted_bounds 0.5 1 0). lra. Defined.

(** X6: [mapRange] onto [[0,1]] followed by [clamp] gives the progress
    within a scroll range [[inMin, inMax)]: 0 up to [inMin], 1 from
    [inMax] on, and the elapsed fraction in between. *)
Theorem clamped_local_progress (value inMin inMax : R) :
  inMin < inMax ->
  (value <= inMin -> clamp (mapRange value inMin inMax 0 1) 0 1 = 0)
  /\ (inMax <= value -> clamp (mapRange value inMin inMax 0 1) 0 1 = 1)
  /\ (inMin <= value <= inMax ->
        clamp (mapRange value inMin inMax 0 1) 0 1
        = (value - inMin) / (inMax - inMin)).
Proof.
  intros H.
  assert (Hinv : 0 < / (inMax - inMin)) by (apply Rinv_0_lt_compat; lra).
  assert (E : mapRange value inMin inMax 0 1 = (value - inMin) * / (inMax - inMin)).
  { unfold mapRange. field. lra. }
  rewrite E.
  assert (E1 : (inMax - inMin) * / (inMax - inMin) = 1) by (apply Rinv_r; lra).
  set (m := (value - inMin) * / (inMax - inMin)) in *.
  unfold Rdiv. fold m. rewrite clamp_cases.
  repeat split; intros Hv.
  - assert (m <= 0) by (unfold m; nra). rle_cases; lra.
  - assert (1 <= m) by (unfold m; nra). rle_cases; lra.
  - pose proof (fraction_bounds value inMin inMax H Hv) as F.
    unfold Rdiv in F. fold m in F. rle_cases; lra.
Qed.

Lemma clamped_local_progress_witness :
  clamp (mapRange 0.35 0.2 0.5 0 1) 0 1 = (0.35 - 0.2) / (0.5 - 0.2).
Proof.
  apply (clamped_local_progress 0.35 0.2 0.5); lra.
Defined.

End RangeFacts.

(** ** Shape of the easing curves *)

Section EasingShape.
Import Animations.
Local Open Scope R_scope.

Lemma inOut_symmetric (m : nat) (t : R) : inOut m t + inOut m (1 - t) = 1.
Proof.
  unfold inOut.
  destruct (Rlt_dec t 0.5) as [L|L], (Rlt_dec (1 - t) 0.5) as [L'|L'].
  - lra.
  - replace (-2 * (1 - t) + 2) with (2 * t) by lra. lra.
  - replace (-2 * t + 2) with (2 * (1 - t)) by lra. lra.
  - assert (E : t = 0.5) by lra. subst t.
    replace (-2 * 0.5 + 2) with 1 by lra.
    replace (-2 * (1 - 0.5) + 2) with 1 by lra.
    rewrite pow1. lra.
Qed.

Lemma easeInOutCubic_inOut (t : R) : easeInOutCubic t = inOut 2 t.
Proof.
  unfold inOut, easeInOutCubic. destruct (Rlt_dec t 0.5); [field | reflexivity].
Qed.

Lemma easeInOutQuint_inOut (t : R) : easeInOutQuint t = inOut 4 t.
Proof.
  unfold inOut, easeInOutQuint. destruct (Rlt_dec t 0.5); [field | reflexivity].
Qed.

(** X7: the two in-out curves are point-symmetric about (1/2, 1/2): for
    every real [t], [f t + f (1 - t) = 1]; in particular both pass through
    one half at [t = 0.5], where their two branches meet. *)
Theorem easeInOut_point_symmetric (t : R) :
  easeInOutCubic t + easeInOutCubic (1 - t) = 1
  /\ easeInOutQuint t + easeInOutQuint (1 - t) = 1
  /\ easeInOutCubic 0.5 = 0.5
  /\ easeInOutQuint 0.5 = 0.5.
Proof.
  rewrite !easeInOutCubic_inOut, !easeInOutQuint_inOut.
  split; [apply inOut_symmetric|]. split; [apply inOut_symmetric|].
  pose proof (inOut_symmetric 2 0.5) as H2.
  pose proof (inOut_symmetric 4 0.5) as H4.
  replace (1 - 0.5) with 0.5 in H2, H4 by lra. lra.
Qed.

(** X8: [easeOutQuart] never exceeds 1, for any real input, and on
    [[0,1]] it runs ahead of linear progress: [t <= easeOutQuart t]. *)
Theorem easeOutQuart_ahead_of_linear :
  (forall t, easeOutQuart t <= 1)
  /\ (forall t, 0 <= t <= 1 -> t <= easeOutQuart t).
Proof.
  unfold easeOutQuart. split.
  - intros t. replace ((1 - t) ^ 4) with (((1 - t) ^ 2) ^ 2) by ring.
    pose proof (pow2_ge_0 ((1 - t) ^ 2)). lra.
  - intros t Ht.
    pose proof (pow_unit 3 (1 - t) ltac:(lra)) as [P0 P1].
    replace ((1 - t) ^ 4) with ((1 - t) * (1 - t) ^ 3) by ring. nra.
Qed.

Lemma Rpower_2_nonpos (y : R) : y <= 0 -> 0 < Rpower 2 y <= 1.
Proof.
  intros Hy. split.
  - unfold Rpower. apply exp_pos.
  - rewrite <- (Rpower_O 2) by lra. apply Rle_Rpower; lra.
Qed.

(** X9: for [t >= 0] the elastic curve stays within [2 ^ (-10 t)] of 1,
    hence between 0 and 2: the overshoot is bounded and dies out. *)
Theorem easeOutElastic_bounded (t : R) :
  0 <= t ->
  Rabs (easeOutElastic t - 1) <= Rpower 2 (-10 * t)
  /\ 0 <= easeOutElastic t <= 2.
Proof.
  intros Ht.
  pose proof (Rpower_2_nonpos (-10 * t) ltac:(lra)) as [P0 P1].
  unfold easeOutElastic. cbv zeta.
  destruct (Req_dec_T t 0) as [E0|N0].
  - subst t. replace (-10 * 0) with 0 in * by lra.
    rewrite Rpower_O by lra.
    replace (0 - 1) with (- (1)) by lra. rewrite Rabs_Ropp, Rabs_R1. lra.
  - destruct (Req_dec_T t 1) as [E1|N1].
    + replace (1 - 1) with 0 by lra. rewrite Rabs_R0. lra.
    + set (s := sin ((t * 10 - 0.75) * (2 * PI / 3))).
      pose proof (SIN_bound ((t * 10 - 0.75) * (2 * PI / 3))) as [S0 S1].
      fold s in S0, S1.
      set (p := Rpower 2 (-10 * t)) in *.
      replace (p * s + 1 - 1) with (p * s) by lra.
      split; [|nra].
      apply Rabs_le. nra.
Qed.

Lemma easeOutElastic_bounded_witness : 0 <= easeOutElastic 0.3 <= 2.
Proof.
  apply (easeOutElastic_bounded 0.3). lra.
Defined.

End EasingShape.

(** ** Per-frame motion of the glove *)

Section GloveFacts.
Import Glove.
Local Open Scope R_scope.

(** X10: one frame of the glove component turns the group about the Y
    axis by between 0.002 and 0.004 radians, puts its height within
    0.11 of zero and its tilt within 0.02 of zero, whatever the clock
    time, and leaves the other coordinates alone. *)
Theorem frame_motion_bounds (time : R) (g : Group) :
  rotation_y g + 0.002 <= rotation_y (frame time g) <= rotation_y g + 0.004
  /\ -0.11 <= position_y (frame time g) <= 0.11
  /\ -0.02 <= rotation_x (frame time g) <= 0.02
  /\ position_x (frame time g) = position_x g
  /\ position_z (frame time g) = position_z g
  /\ rotation_z (frame time g) = rotation_z g.
Proof.
  cbn [frame rotation_y position_y rotation_x position_x position_z rotation_z].
  pose proof (SIN_bound (time * 0.1)).
  pose proof (SIN_bound (time * 0.4)).
  pose proof (SIN_bound (time * 0.3)).
  pose proof (COS_bound (time * 0.6)).
  repeat split; lra.
Qed.

Lemma frames_snoc (step : R -> Group -> Group) (times : list R) (time : R) (g : Group) :
  frames step (times ++ [time]) g = step time (frames step times g).
Proof. unfold frames. now rewrite fold_left_app. Qed.

(** X11: over any sequence of frames the Y rotation never turns back:
    after [n] frames it has advanced by between [0.002 n] and [0.004 n]
    radians. *)
Theorem rotation_never_reverses (times : list R) (g : Group) :
  rotation_y g + 0.002 * INR (List.length times)
    <= rotation_y (frames frame times g)
    <= rotation_y g + 0.004 * INR (List.length times).
Proof.
  induction times as [|time times IH] using rev_ind.
  - cbn. lra.
  - rewrite frames_snoc, length_app, plus_INR. cbn [List.length INR].
    pose proof (frame_motion_bounds time (frames frame times g)) as [B _]. lra.
Qed.

(** X12: the earlier component turns the group by exactly 0.005 radians
    per frame, so by [0.005 n] after [n] frames, and keeps its height
    within 0.1 of zero once a frame has run. *)
Theorem legacy_rotation_is_linear (times : list R) (g : Group) :
  rotation_y (frames legacyFrame times g)
  = rotation_y g + 0.005 * INR (List.length times)
  /\ (times <> [] -> -0.1 <= position_y (frames legacyFrame times g) <= 0.1).
Proof.
  split.
  - induction times as [|time times IH] using rev_ind.
    + cbn. lra.
    + rewrite frames_snoc, length_app, plus_INR. cbn [List.length INR legacyFrame rotation_y].
      rewrite IH. lra.
  - destruct times as [|time times] using rev_ind; [congruence|]. intros _.
    rewrite frames_snoc. cbn [legacyFrame position_y].
    pose proof (SIN_bound (time * 0.5)). lra.
Qed.

(** X13: the emissive intensity of both sensor glows lies between 0.2
    and 0.8 for every scroll progress: the glow never goes dark and
    never saturates. *)
Theorem emissive_intensity_bounds (scrollProgress : R) :
  0.2 <= emissiveIntensity1 scrollProgress <= 0.8
  /\ 0.2 <= emissiveIntensity2 scrollProgress <= 0.8.
Proof.
  unfold emissiveIntensity1, emissiveIntensity2.
  pose proof (SIN_bound (scrollProgress * 10)).
  pose proof (SIN_bound (scrollProgress * 10 + 1)).
  lra.
Qed.

End GloveFacts.

(** ** Responsive breakpoints *)

Section ResponsiveFacts.
Import Responsive.

Lemma useResponsive_last (mounted : Z) (resizes : list Z) :
  useResponsive mounted resizes = handleResize (last resizes mounted).
Proof.
  unfold useResponsive.
  destruct resizes as [|w ws _] using rev_ind; [reflexivity|].
  now rewrite fold_left_app, last_last.
Qed.

(** X14: once the effect has run, and after any sequence of resize
    events, the hook reports the width of the window as it is now and
    exactly one of mobile (below 768), tablet (768 to 1199) and desktop
    (1200 and up) for it. *)
Theorem breakpoints_partition (mounted : Z) (resizes : list Z) :
  let b := useResponsive mounted resizes in
  let w := last resizes mounted in
  width b = w
  /\ (isMobile b = true <-> (w < 768)%Z)
  /\ (isTablet b = true <-> (768 <= w < 1200)%Z)
  /\ (isDesktop b = true <-> (1200 <= w)%Z)
  /\ ((isMobile b, isTablet b, isDesktop b) = (true, false, false)
      \/ (isMobile b, isTablet b, isDesktop b) = (false, true, false)
      \/ (isMobile b, isTablet b, isDesktop b) = (false, false, true)).
Proof.
  cbv zeta. rewrite useResponsive_last.
  set (w := last resizes mounted).
  cbn [handleResize width isMobile isTablet isDesktop].
  rewrite andb_true_iff, !Z.ltb_lt, !Z.leb_le.
  split; [reflexivity|]. split; [reflexivity|]. split; [reflexivity|].
  split; [reflexivity|].
  destruct (w <? 768)%Z eqn:E1, (768 <=? w)%Z eqn:E2, (w <? 1200)%Z eqn:E3,
    (1200 <=? w)%Z eqn:E4; cbn; auto;
    rewrite ?Z.ltb_lt, ?Z.ltb_ge, ?Z.leb_le, ?Z.leb_gt in *; lia.
Qed.

(** X15: the canvas is given the reduced pixel-ratio cap 1.5 exactly on
    windows narrower than 768 pixels and the cap 2 otherwise; before the
    effect has run the hook reports desktop, hence the cap 2, whatever
    the width. *)
Theorem canvas_dpr_by_width (mounted : Z) (resizes : list Z) (innerWidth : option Z) :
  canvasDpr (useResponsive mounted resizes)
  = (if (last resizes mounted <? 768)%Z then (1, 1.5)%Q else (1, 2)%Q)
  /\ canvasDpr (initialBreakpoint innerWidth) = (1, 2)%Q.
Proof.
  rewrite useResponsive_last. split; reflexivity.
Qed.

End ResponsiveFacts.

(** ** WebGL capability detection and quality tiers *)

Section WebGLFacts.
Import WebGL.

Lemma toLowerCase_app (a b : string) :
  toLowerCase (a ++ b) = (toLowerCase a ++ toLowerCase b)%string.
Proof. induction a as [|c a IH]; cbn; [reflexivity | now rewrite IH]. Qed.

Lemma prefix_app (m b : string) : String.prefix m (m ++ b) = true.
Proof.
  induction m as [|c m IH]; [destruct b; reflexivity|].
  cbn. destruct (Ascii.ascii_dec c c); [exact IH | contradiction].
Qed.

Lemma includes_here (m b : string) : includes (m ++ b) m = true.
Proof.
  destruct m as [|c m]; [destruct b; reflexivity|].
  change (includes (String c m ++ b) (String c m))
    with (String.prefix (String c m) (String c m ++ b)
          || includes (m ++ b) (String c m)).
  now rewrite prefix_app.
Qed.

Lemma includes_app_l (pre s sub : string) :
  includes s sub = true -> includes (pre ++ s) sub = true.
Proof.
  intros H. induction pre as [|c pre IH]; [exact H|].
  change (includes (String c pre ++ s) sub)
    with (String.prefix sub (String c (pre ++ s)) || includes (pre ++ s) sub).
  rewrite IH. apply orb_true_r.
Qed.

(** X16: the detection reports support exactly when the canvas yields
    some context, a version exactly when it reports support, version 2
    exactly when a WebGL 2 context exists, and reads the limits from the
    first context in the order webgl2, webgl, experimental-webgl; with no
    context every limit is zero and the renderer is "none". *)
Theorem detection_invariants (canvas : Canvas) :
  (supported (detectWebGLCapabilities canvas) = true
   <-> orElse (webgl2 canvas) (orElse (webgl canvas) (experimental_webgl canvas)) <> None)
  /\ (supported (detectWebGLCapabilities canvas) = true
      <-> version (detectWebGLCapabilities canvas) <> None)
  /\ (version (detectWebGLCapabilities canvas) = Some V2 <-> webgl2 canvas <> None)
  /\ (forall gl,
        orElse (webgl2 canvas) (orElse (webgl canvas) (experimental_webgl canvas)) = Some gl ->
        maxTextureSize (detectWebGLCapabilities canvas) = MAX_TEXTURE_SIZE gl)
  /\ (supported (detectWebGLCapabilities canvas) = false ->
        version (detectWebGLCapabilities canvas) = None
        /\ maxTextureSize (detectWebGLCapabilities canvas) = 0%Z
        /\ renderer (detectWebGLCapabilities canvas) = "none"%string).
Proof.
  destruct canvas as [[g2|] [g1|] [ge|]]; cbn;
    repeat split; intros; try congruence; try discriminate.
Qed.

Lemma full_tier_iff (c : WebGLCapabilities) :
  particleCount (getRecommendedQuality c) = 1000%Z <-> canHandleFullExperience c = true.
Proof.
  unfold getRecommendedQuality.
  destruct (supported c) eqn:Es; cbn [negb].
  - destruct (canHandleFullExperience c); cbn; split; congruence.
  - unfold canHandleFullExperience. rewrite Es. cbn. split; discriminate.
Qed.

(** X17: the recommendation is one of three tiers.  It has no particles
    exactly for unsupported devices and 1000 exactly for devices that can
    handle the full experience, 500 otherwise; shadows and
    post-processing go together and are on exactly in the full tier; the
    pixel-ratio range starts at 1 and ends between 1 and 2. *)
Theorem quality_tiers (c : WebGLCapabilities) :
  (particleCount (getRecommendedQuality c) = 0%Z <-> supported c = false)
  /\ (particleCount (getRecommendedQuality c) = 1000%Z
      <-> canHandleFullExperience c = true)
  /\ (particleCount (getRecommendedQuality c) = 0%Z
      \/ particleCount (getRecommendedQuality c) = 500%Z
      \/ particleCount (getRecommendedQuality c) = 1000%Z)
  /\ shadows (getRecommendedQuality c) = postProcessing (getRecommendedQuality c)
  /\ shadows (getRecommendedQuality c) = canHandleFullExperience c
  /\ fst (dpr (getRecommendedQuality c)) = 1%Q
  /\ (1 <= snd (dpr (getRecommendedQuality c)) <= 2)%Q.
Proof.
  unfold getRecommendedQuality.
  destruct (supported c) eqn:Es; cbn [negb].
  - destruct (canHandleFullExperience c) eqn:Ef; cbn;
      repeat split; intros; try congruence; try discriminate; auto.
  - assert (Ef : canHandleFullExperience c = false).
    { unfold canHandleFullExperience. now rewrite Es. }
    rewrite Ef. cbn. repeat split; intros; try congruence; try discriminate; auto.
Qed.

(** X18: detection followed by recommendation.  A canvas with no context
    gets the empty tier; one with only WebGL 1 contexts gets the medium
    tier whatever their limits; the full tier needs a WebGL 2 context
    with textures of at least 4096; and such a context that does not
    disclose its renderer does get the full tier. *)
Theorem detected_quality (canvas : Canvas) :
  (webgl2 canvas = None -> webgl canvas = None -> experimental_webgl canvas = None ->
     getRecommendedQuality (detectWebGLCapabilities canvas)
     = {| dpr := (1, 1)%Q; shadows := false; postProcessing := false; particleCount := 0 |})
  /\ (webgl2 canvas = None ->
      orElse (webgl canvas) (experimental_webgl canvas) <> None ->
      particleCount (getRecommendedQuality (detectWebGLCapabilities canvas)) = 500%Z)
  /\ (particleCount (getRecommendedQuality (detectWebGLCapabilities canvas)) = 1000%Z ->
      exists gl, webgl2 canvas = Some gl /\ (4096 <= MAX_TEXTURE_SIZE gl)%Z)
  /\ (forall gl, webgl2 canvas = Some gl -> debugRenderer gl = None ->
      (4096 <= MAX_TEXTURE_SIZE gl)%Z ->
      particleCount (getRecommendedQuality (detectWebGLCapabilities canvas)) = 1000%Z).
Proof.
  destruct canvas as [w2 w1 we]. cbn [webgl2 webgl experimental_webgl].
  split; [intros -> -> ->; reflexivity|].
  split; [intros ->; destruct w1, we; cbn; congruence|].
  split.
  - destruct w2 as [g2|]; [|destruct w1, we; cbn; discriminate].
    unfold getRecommendedQuality, canHandleFullExperience. cbn.
    destruct (MAX_TEXTURE_SIZE g2 <? 4096)%Z eqn:E; cbn; [discriminate|].
    intros _. exists g2. split; [reflexivity | now apply Z.ltb_ge in E].
  - intros gl -> Hdbg Hsize.
    unfold detectWebGLCapabilities, getRecommendedQuality, canHandleFullExperience.
    cbn. rewrite Hdbg. apply Z.ltb_ge in Hsize. rewrite Hsize. reflexivity.
Qed.

Lemma detected_quality_witness :
  particleCount
    (getRecommendedQuality
       (detectWebGLCapabilities
          {| webgl2 := None;
             webgl := Some {| debugRenderer := Some "Mali-G78"%string;
                              MAX_TEXTURE_SIZE := 8192;
                              anisotropic := None |};
             experimental_webgl := None |})) = 500%Z.
Proof.
  apply detected_quality; [reflexivity | discriminate].
Defined.

(** X19: a renderer string that contains one of the low-power
    indicators in any mix of upper and lower case rules out the full
    experience, and with it the full quality tier. *)
Theorem low_power_renderer_is_never_full (c : WebGLCapabilities) (pre mid post : string) :
  renderer c = (pre ++ mid ++ post)%string ->
  In (toLowerCase mid) lowPowerIndicators ->
  canHandleFullExperience c = false
  /\ particleCount (getRecommendedQuality c) <> 1000%Z.
Proof.
  intros Hr Hin.
  assert (Hf : canHandleFullExperience c = false).
  { unfold canHandleFullExperience.
    destruct (supported c); cbn [negb]; [|reflexivity].
    destruct (isVersion2 (version c)); cbn [negb]; [|reflexivity].
    destruct (maxTextureSize c <? 4096)%Z; [reflexivity|].
    apply negb_false_iff. apply existsb_exists.
    exists (toLowerCase mid). split; [exact Hin|].
    rewrite Hr, !toLowerCase_app. apply includes_app_l, includes_here. }
  split; [exact Hf|].
  intros H. apply full_tier_iff in H. congruence.
Qed.

End WebGLFacts.

Lemma low_power_renderer_is_never_full_witness :
  WebGL.canHandleFullExperience
    {| WebGL.supported := true;
       WebGL.version := Some WebGL.V2;
       WebGL.maxTextureSize := 16384;
       WebGL.maxAnisotropy := 16;
       WebGL.renderer := "ANGLE (Intel(R) UHD Graphics 620)" |} = false.
Proof.
  apply (low_power_renderer_is_never_full _ "ANGLE (" "Intel" "(R) UHD Graphics 620)");
    [reflexivity | left; reflexivity].
Defined.

(** ** Which updates reach the consumer *)

Section Reach.
Import Config.

Lemma resolves_unit_interval (p : Q) :
  resolves SCENE_TIMELINE p = true <-> (0 <= p /\ p < 1)%Q.
Proof.
  unfold resolves, CameraController.currentScene, Js.findIndex, SCENE_TIMELINE,
    CameraController.inScene.
  cbn [Js.findIndexFrom scrollStart scrollEnd].
  cmp_cases; cbn; split; intros H; try discriminate; try reflexivity;
    try (split; lra); exfalso; lra.
Qed.

Lemma sceneOf_range (p : Q) : (1 <= ScrollAnimation.sceneOf p <= 5)%Z.
Proof.
  unfold ScrollAnimation.sceneOf.
  repeat match goal with |- context [Js.ltb ?a ?b] => destruct (Js.ltb a b) end; lia.
Qed.

(** X20: the controller invokes the callback exactly for progress values
    in [[0,1)]: a value below 0 or from 1 upwards leaves every consumer
    untouched, whereas the legacy hook invokes it for every value, with
    scene 1 below 0 and scene 5 from 0.9 upwards. *)
Theorem callback_reach (p : Q) :
  (resolves SCENE_TIMELINE p = true <-> (0 <= p /\ p < 1)%Q)
  /\ (forall (S : Type) (cb : option (Callback S)) (s : S),
        (p < 0 \/ 1 <= p)%Q ->
        CameraController.onUpdate SCENE_TIMELINE cb p s = s)
  /\ (forall (S : Type) (cb : Callback S) (s : S),
        ScrollAnimation.onUpdate (Some cb) p s = cb (ScrollAnimation.sceneOf p) s)
  /\ ((p < 0)%Q -> ScrollAnimation.sceneOf p = 1%Z)
  /\ ((0.9 <= p)%Q -> ScrollAnimation.sceneOf p = 5%Z).
Proof.
  split; [apply resolves_unit_interval|].
  split.
  { intros S cb s Hp. unfold CameraController.onUpdate.
    destruct (resolves SCENE_TIMELINE p) eqn:E.
    - apply resolves_unit_interval in E. lra.
    - unfold resolves in E. rewrite E. reflexivity. }
  split; [intros S cb s; now rewrite legacy_onUpdate_sceneOf|].
  unfold ScrollAnimation.sceneOf.
  split; intros Hp; cmp_cases; try reflexivity; exfalso; lra.
Qed.

Lemma findIndexFrom_spec {A : Type} (f : A -> bool) (l : list A) (i : Z) :
  (Js.findIndexFrom f l i = (-1)%Z /\ forall x, In x l -> f x = false)
  \/ exists (k : nat) (x : A),
       Js.findIndexFrom f l i = (i + Z.of_nat k)%Z
       /\ nth_error l k = Some x /\ f x = true
       /\ forall j y, (j < k)%nat -> nth_error l j = Some y -> f y = false.
Proof.
  revert i. induction l as [|a l IH]; intros i.
  - left. split; [reflexivity | intros x []].
  - cbn [Js.findIndexFrom]. destruct (f a) eqn:Ea.
    + right. exists 0%nat, a. repeat split; [lia | exact Ea | intros j y Hj; lia].
    + destruct (IH (i + 1)%Z) as [[E Hall] | (k & x & E & Hn & Hx & Hlt)].
      * left. split; [exact E|]. intros x [<-|Hin]; [exact Ea | now apply Hall].
      * right. exists (Datatypes.S k), x. repeat split; [lia | exact Hn | exact Hx |].
        intros [|j] y Hj Hy; cbn in Hy; [congruence|].
        apply (Hlt j y); [lia | exact Hy].
Qed.

(** X21: for every configuration and progress value the scan either
    finds no matching segment and returns [-1], or returns the index of
    the first segment, in array order, whose range contains the value; so
    where ranges overlap the earlier segment wins, and the index handed to
    the callback lies between 1 and the number of segments. *)
Theorem currentScene_first_match (scenes : list SceneConfig) (p : Q) :
  ((CameraController.currentScene scenes p = (-1)%Z
    /\ forall scene, In scene scenes -> CameraController.inScene p scene = false)
   \/ exists (k : nat) (scene : SceneConfig),
        CameraController.currentScene scenes p = Z.of_nat k
        /\ nth_error scenes k = Some scene
        /\ CameraController.inScene p scene = true
        /\ forall j other, (j < k)%nat -> nth_error scenes j = Some other ->
             CameraController.inScene p other = false)
  /\ (-1 <= CameraController.currentScene scenes p < Z.of_nat (List.length scenes))%Z.
Proof.
  unfold CameraController.currentScene, Js.findIndex.
  destruct (findIndexFrom_spec (CameraController.inScene p) scenes 0)
    as [[E Hall] | (k & x & E & Hn & Hx & Hlt)].
  - split; [left; split; assumption|]. rewrite E. lia.
  - split; [right; exists k, x; repeat split; assumption|].
    rewrite E. assert (k < List.length scenes)%nat
      by (apply nth_error_Some; congruence). lia.
Qed.

Lemma sceneOf_monotone (p q : Q) :
  (p <= q)%Q -> (ScrollAnimation.sceneOf p <= ScrollAnimation.sceneOf q)%Z.
Proof.
  intros H. unfold ScrollAnimation.sceneOf.
  cmp_cases; try lia; exfalso; lra.
Qed.

(** X22: the scene number never decreases with progress: the legacy
    chain is monotonic on all values, and the controller's index is
    monotonic on [[0,1)]. *)
Theorem scene_index_monotone (p q : Q) :
  (p <= q)%Q ->
  (ScrollAnimation.sceneOf p <= ScrollAnimation.sceneOf q)%Z
  /\ ((0 <= p)%Q -> (q < 1)%Q ->
      (CameraController.currentScene SCENE_TIMELINE p
       <= CameraController.currentScene SCENE_TIMELINE q)%Z).
Proof.
  intros H. pose proof (sceneOf_monotone p q H) as M.
  split; [exact M|]. intros H0 H1.
  rewrite !currentScene_sceneOf by lra. lia.
Qed.

Lemma scene_index_monotone_witness :
  (CameraController.currentScene SCENE_TIMELINE 0.3
   <= CameraController.currentScene SCENE_TIMELINE 0.6)%Z.
Proof.
  apply (scene_index_monotone 0.3 0.6); [unfold Qle; cbn; lia | unfold Qle; cbn; lia | reflexivity].
Defined.

End Reach.

(** ** The application's scene state *)

Section SceneStateFacts.
Import Config.

Lemma run_snoc (S : Type) (e : option (Engine S)) (ps : list Q) (p : Q) (w : World S) :
  run e (ps ++ [p]) w = notify e (run e ps w) p.
Proof. unfold run. now rewrite fold_left_app. Qed.

Lemma currentScene_shipped_range (p : Q) :
  (-1 <= CameraController.currentScene SCENE_TIMELINE p <= 4)%Z.
Proof.
  unfold CameraController.currentScene, Js.findIndex, SCENE_TIMELINE.
  cbn [Js.findIndexFrom].
  repeat match goal with
    | |- context [if CameraController.inScene p ?s then _ else _] =>
        destruct (CameraController.inScene p s)
    end; lia.
Qed.

Lemma scene_state_step (k : Z) (s : SceneState) :
  (1 <= k <= 5)%Z ->
  (1 <= currentScene (sceneOnSceneChange k s) <= 5)%Z
  /\ (scrollProgress (sceneOnSceneChange k s)
      == (inject_Z (currentScene (sceneOnSceneChange k s)) - 1) / 4)%Q
  /\ (0 <= scrollProgress (sceneOnSceneChange k s) <= 1)%Q.
Proof.
  intros Hk. cbn [sceneOnSceneChange currentScene scrollProgress].
  split; [exact Hk|]. split; [reflexivity|].
  assert (E : k = 1%Z \/ k = 2%Z \/ k = 3%Z \/ k = 4%Z \/ k = 5%Z) by lia.
  destruct E as [->|[->|[->|[->| ->]]]]; split; unfold Qle; cbn; lia.
Qed.

(** X23: in the application, whichever hook drives it and whatever
    progress values arrive, the scene number stays between 1 and 5 and
    the progress handed on to the glove model is always
    [(scene - 1) / 4], one of five values between 0 and 1. *)
Theorem scene_state_invariant (c : Gsap.Camera) (ps : list Q) :
  ((1 <= currentScene
            (consumer (run (CameraController.useCameraController (Some c)
                              (Some sceneOnSceneChange)) ps (sceneWorld c))) <= 5)%Z
   /\ (scrollProgress
         (consumer (run (CameraController.useCameraController (Some c)
                           (Some sceneOnSceneChange)) ps (sceneWorld c)))
       == (inject_Z
             (currentScene
                (consumer (run (CameraController.useCameraController (Some c)
                                  (Some sceneOnSceneChange)) ps (sceneWorld c)))) - 1) / 4)%Q
   /\ (0 <= scrollProgress
              (consumer (run (CameraController.useCameraController (Some c)
                                (Some sceneOnSceneChange)) ps (sceneWorld c))) <= 1)%Q)
  /\ ((1 <= currentScene
              (consumer (run (ScrollAnimation.useScrollAnimation (Some c)
                                (Some sceneOnSceneChange)) ps (sceneWorld c))) <= 5)%Z
      /\ (scrollProgress
            (consumer (run (ScrollAnimation.useScrollAnimation (Some c)
                              (Some sceneOnSceneChange)) ps (sceneWorld c)))
          == (inject_Z
                (currentScene
                   (consumer (run (ScrollAnimation.useScrollAnimation (Some c)
                                     (Some sceneOnSceneChange)) ps (sceneWorld c)))) - 1) / 4)%Q
      /\ (0 <= scrollProgress
                 (consumer (run (ScrollAnimation.useScrollAnimation (Some c)
                                   (Some sceneOnSceneChange)) ps (sceneWorld c))) <= 1)%Q).
Proof.
  split.
  - induction ps as [|p ps IH] using rev_ind.
    + cbn. repeat split; unfold Qle; cbn; lia.
    + rewrite run_snoc.
      cbn [notify consumer CameraController.useCameraController
             CameraController.effect handler].
      unfold CameraController.onUpdate.
      pose proof (currentScene_shipped_range p) as R.
      destruct (CameraController.currentScene SCENE_TIMELINE p =? -1)%Z eqn:E; cbn [negb].
      * exact IH.
      * apply Z.eqb_neq in E. apply scene_state_step. lia.
  - induction ps as [|p ps IH] using rev_ind.
    + cbn. repeat split; unfold Qle; cbn; lia.
    + rewrite run_snoc.
      cbn [notify consumer ScrollAnimation.useScrollAnimation handler].
      rewrite legacy_onUpdate_sceneOf. cbn [ScrollAnimation.callOpt].
      apply scene_state_step, sceneOf_range.
Qed.

(** X24: each update is resolved on its own.  After an update with
    [0 <= p < 1] the application's state is the one for the scene of [p],
    whatever updates came before, in either order of scrolling; an update
    outside [[0,1)] leaves the state the controller had reached. *)
Theorem last_resolved_update_wins (c : Gsap.Camera) (ps : list Q) (p : Q)
    (w : World SceneState) :
  ((0 <= p)%Q -> (p < 1)%Q ->
     consumer (run (CameraController.useCameraController (Some c)
                      (Some sceneOnSceneChange)) (ps ++ [p]) w)
     = {| currentScene := ScrollAnimation.sceneOf p;
          scrollProgress := (inject_Z (ScrollAnimation.sceneOf p) - 1) / 4 |})
  /\ ((p < 0 \/ 1 <= p)%Q ->
        consumer (run (CameraController.useCameraController (Some c)
                         (Some sceneOnSceneChange)) (ps ++ [p]) w)
        = consumer (run (CameraController.useCameraController (Some c)
                           (Some sceneOnSceneChange)) ps w))
  /\ consumer (run (ScrollAnimation.useScrollAnimation (Some c)
                      (Some sceneOnSceneChange)) (ps ++ [p]) w)
     = {| currentScene := ScrollAnimation.sceneOf p;
          scrollProgress := (inject_Z (ScrollAnimation.sceneOf p) - 1) / 4 |}.
Proof.
  rewrite !run_snoc.
  cbn [notify consumer CameraController.useCameraController CameraController.effect
         ScrollAnimation.useScrollAnimation handler].
  split; [|split].
  - intros H0 H1. unfold CameraController.onUpdate.
    rewrite (currentScene_sceneOf p H0 H1).
    pose proof (sceneOf_range p) as R.
    destruct (ScrollAnimation.sceneOf p - 1 =? -1)%Z eqn:E;
      [apply Z.eqb_eq in E; lia|].
    cbn [negb]. unfold sceneOnSceneChange.
    replace (ScrollAnimation.sceneOf p - 1 + 1)%Z with (ScrollAnimation.sceneOf p) by lia.
    reflexivity.
  - intros Hp. unfold CameraController.onUpdate.
    destruct (resolves SCENE_TIMELINE p) eqn:E.
    + apply resolves_unit_interval in E. lra.
    + unfold resolves in E. rewrite E. reflexivity.
  - rewrite legacy_onUpdate_sceneOf. reflexivity.
Qed.

End SceneStateFacts.

(** ** The timeline the controller builds, for any configuration *)

Section TimelineFacts.
Import Config.

Lemma addScene_split (tl : Gsap.Timeline) (cum : Q) (scene : SceneConfig) :
  CameraController.addScene (tl, cum) scene
  = (tl ++ sceneTweens scene cum, (cum + duration scene)%Q).
Proof.
  unfold sceneTweens, CameraController.addScene, Gsap.to.
  destruct (position (end_ (camera scene))) as [[px py] pz].
  destruct (rotation (end_ (camera scene))) as [[rx ry] rz].
  destruct (fov (end_ (camera scene))) as [f|]; [destruct (Qeq_bool f 0)|];
    cbn [fst app]; rewrite <- ?app_assoc; reflexivity.
Qed.

Lemma fold_addScene (scenes : list SceneConfig) (tl : Gsap.Timeline) (cum : Q) :
  snd (fold_left CameraController.addScene scenes (tl, cum))
  = fold_left (fun acc scene => (acc + duration scene)%Q) scenes cum.
Proof.
  revert tl cum. induction scenes as [|s scenes IH]; intros tl cum; [reflexivity|].
  cbn [fold_left]. rewrite addScene_split. apply IH.
Qed.

Lemma fold_addScene_snoc (scenes : list SceneConfig) (scene : SceneConfig)
    (st : Gsap.Timeline * Q) :
  fst (fold_left CameraController.addScene (scenes ++ [scene]) st)
  = fst (fold_left CameraController.addScene scenes st)
      ++ sceneTweens scene (snd (fold_left CameraController.addScene scenes st)).
Proof.
  rewrite fold_left_app. cbn [fold_left].
  destruct (fold_left CameraController.addScene scenes st) as [tl cum].
  rewrite addScene_split. reflexivity.
Qed.

Lemma buildTimeline_snoc (scenes : list SceneConfig) (scene : SceneConfig) :
  CameraController.buildTimeline (scenes ++ [scene])
  = CameraController.buildTimeline scenes ++ sceneTweens scene (sumDurations scenes).
Proof.
  unfold CameraController.buildTimeline, sumDurations.
  rewrite fold_addScene_snoc. f_equal. f_equal. apply fold_addScene.
Qed.

Lemma sceneTweens_shape (scene : SceneConfig) (at_ : Q) :
  sceneTweens scene at_
  = positionTween scene at_ :: rotationTween scene at_
      :: (if animatesFov scene
          then match fov (end_ (camera scene)) with
               | Some f => [ {| Gsap.vars := Gsap.ToFov f;
                                Gsap.tw_duration := duration scene;
                                Gsap.tw_ease := easing scene;
                                Gsap.tw_at := at_ |} ]
               | None => []
               end
          else []).
Proof.
  unfold sceneTweens, positionTween, rotationTween, animatesFov,
    CameraController.addScene, Gsap.to.
  destruct (position (end_ (camera scene))) as [[px py] pz].
  destruct (rotation (end_ (camera scene))) as [[rx ry] rz].
  destruct (fov (end_ (camera scene))) as [f|]; [destruct (Qeq_bool f 0)|];
    reflexivity.
Qed.

(** X25: for every configuration the timeline holds two tweens per
    scene, position and rotation, plus one for each scene whose end
    keyframe has a non-zero field of view. *)
Theorem buildTimeline_length (scenes : list SceneConfig) :
  List.length (CameraController.buildTimeline scenes)
  = (2 * List.length scenes + List.length (filter animatesFov scenes))%nat.
Proof.
  induction scenes as [|scene scenes IH] using rev_ind; [reflexivity|].
  rewrite buildTimeline_snoc, filter_app, !length_app, IH, sceneTweens_shape.
  cbn [filter]. unfold animatesFov.
  destruct (fov (end_ (camera scene))) as [f|]; [destruct (Qeq_bool f 0)|];
    cbn; lia.
Qed.

(** X26: every scene's position and rotation tweens start when the
    durations of the scenes before it have elapsed, carry the scene's own
    duration and easing, and follow the tweens of the earlier scenes in
    the timeline. *)
Theorem scene_tweens_placement (before after : list SceneConfig) (scene : SceneConfig) :
  exists rest,
    CameraController.buildTimeline (before ++ scene :: after)
    = CameraController.buildTimeline before
        ++ positionTween scene (sumDurations before)
        :: rotationTween scene (sumDurations before)
        :: rest.
Proof.
  induction after as [|last after IH] using rev_ind.
  - rewrite buildTimeline_snoc, sceneTweens_shape. eexists. reflexivity.
  - destruct IH as [rest IH].
    replace (before ++ scene :: after ++ [last])
      with ((before ++ scene :: after) ++ [last]) by now rewrite <- app_assoc.
    rewrite buildTimeline_snoc, IH.
    eexists. rewrite <- app_assoc. cbn [app]. reflexivity.
Qed.

Lemma totalDuration_app (a b : Gsap.Timeline) :
  Gsap.totalDuration (a ++ b)
  = fold_left (fun m tw => Qmax m (Gsap.tw_at tw + Gsap.tw_duration tw)) b
      (Gsap.totalDuration a).
Proof. unfold Gsap.totalDuration. apply fold_left_app. Qed.

Lemma Qmax_absorb (m e : Q) : (m <= e)%Q -> (Qmax m e == e)%Q.
Proof. intros H. now apply Q.max_r. Qed.

Lemma sumDurations_snoc (scenes : list SceneConfig) (scene : SceneConfig) :
  sumDurations (scenes ++ [scene]) = (sumDurations scenes + duration scene)%Q.
Proof. unfold sumDurations. now rewrite fold_left_app. Qed.

(** X27: when no duration is negative, the length of the timeline,
    which the scroll range is stretched over, is the sum of the scenes'
    durations. *)
Theorem total_duration_is_sum (scenes : list SceneConfig) :
  Forall (fun scene => (0 <= duration scene)%Q) scenes ->
  (Gsap.totalDuration (CameraController.buildTimeline scenes) == sumDurations scenes)%Q.
Proof.
  induction scenes as [|scene scenes IH] using rev_ind; intros Hall.
  - reflexivity.
  - apply Forall_app in Hall. destruct Hall as [Hall Hs].
    inversion Hs as [|? ? Hd _]; subst. specialize (IH Hall).
    rewrite buildTimeline_snoc, totalDuration_app, sumDurations_snoc, sceneTweens_shape.
    set (T := Gsap.totalDuration (CameraController.buildTimeline scenes)) in *.
    set (a := sumDurations scenes) in *.
    assert (E1 : (Qmax T (a + duration scene) == a + duration scene)%Q)
      by (apply Qmax_absorb; lra).
    assert (E2 : (Qmax (Qmax T (a + duration scene)) (a + duration scene)
                  == a + duration scene)%Q)
      by (apply Qmax_absorb; lra).
    unfold positionTween, rotationTween.
    destruct (position (end_ (camera scene))) as [[px py] pz].
    destruct (rotation (end_ (camera scene))) as [[rx ry] rz].
    destruct (animatesFov scene); [destruct (fov (end_ (camera scene)))|];
      cbn [fold_left Gsap.tw_at Gsap.tw_duration]; try exact E2.
    apply Qmax_absorb. lra.
Qed.

Lemma total_duration_is_sum_witness :
  (Gsap.totalDuration (CameraController.buildTimeline SCENE_TIMELINE)
   == sumDurations SCENE_TIMELINE)%Q.
Proof.
  apply (total_duration_is_sum SCENE_TIMELINE).
  repeat constructor; unfold Qle; cbn; lia.
Defined.

End TimelineFacts.

(** ** Well-formed configurations *)

Section WellFormedFacts.
Import Config.

Lemma wellFormed_cons (a : SceneConfig) (rest : list SceneConfig) :
  Spec.wellFormed (a :: rest) = true ->
  (scrollStart a < scrollEnd a)%Q /\ Spec.wellFormed rest = true.
Proof.
  unfold Spec.wellFormed. cbn [forallb]. rewrite !andb_true_iff.
  intros [[Ha Hall] Hc]. apply ltb_true in Ha.
  split; [exact Ha|]. split; [exact Hall|].
  destruct rest as [|b r]; [reflexivity|].
  cbn [Spec.contiguous] in Hc. apply andb_true_iff in Hc. apply Hc.
Qed.

Lemma wellFormed_adjacent (a b : SceneConfig) (r : list SceneConfig) :
  Spec.wellFormed (a :: b :: r) = true -> (scrollEnd a == scrollStart b)%Q.
Proof.
  intros Hw. unfold Spec.wellFormed in Hw. apply andb_true_iff in Hw.
  destruct Hw as [_ Hc]. cbn [Spec.contiguous] in Hc. apply andb_true_iff in Hc.
  apply Qeq_bool_iff, Hc.
Qed.

Lemma wellFormed_ordered (rest : list SceneConfig) :
  forall a, Spec.wellFormed (a :: rest) = true ->
  forall b, In b rest -> (scrollEnd a <= scrollStart b)%Q.
Proof.
  induction rest as [|b r IH]; intros a Hw c Hin; [destruct Hin|].
  pose proof (wellFormed_cons a (b :: r) Hw) as [Ha Hrest].
  pose proof (wellFormed_cons b r Hrest) as [Hb _].
  pose proof (wellFormed_adjacent a b r Hw) as Hab.
  destruct Hin as [<-|Hin]; [lra|].
  pose proof (IH b Hrest c Hin). lra.
Qed.

Lemma filter_nil_of_false {A : Type} (f : A -> bool) (l : list A) :
  (forall x, In x l -> f x = false) -> filter f l = [].
Proof.
  induction l as [|x l IH]; intros H; [reflexivity|].
  cbn. rewrite (H x (or_introl eq_refl)). apply IH. intros y Hy. apply H. now right.
Qed.

Lemma later_scenes_miss (a : SceneConfig) (rest : list SceneConfig) (p : Q) :
  Spec.wellFormed (a :: rest) = true -> (p < scrollEnd a)%Q ->
  filter (CameraController.inScene p) rest = [].
Proof.
  intros Hw Hp. apply filter_nil_of_false. intros b Hb.
  pose proof (wellFormed_ordered rest a Hw b Hb).
  unfold CameraController.inScene. apply andb_false_iff. left. apply geb_false. lra.
Qed.

Lemma last_default_irrelevant {A : Type} (l : list A) (x d d' : A) :
  last (x :: l) d = last (x :: l) d'.
Proof.
  revert x. induction l as [|y l IH]; intros x; [reflexivity|].
  change (last (y :: l) d = last (y :: l) d'). apply IH.
Qed.

Lemma wellFormed_at_most_one (scenes : list SceneConfig) (p : Q) :
  Spec.wellFormed scenes = true ->
  (List.length (filter (CameraController.inScene p) scenes) <= 1)%nat.
Proof.
  induction scenes as [|a rest IH]; intros Hw; [cbn; lia|].
  pose proof (wellFormed_cons a rest Hw) as [_ Hrest].
  cbn [filter]. destruct (CameraController.inScene p a) eqn:E.
  - unfold CameraController.inScene in E. apply andb_true_iff in E. destruct E as [_ E].
    apply ltb_true in E. rewrite (later_scenes_miss a rest p Hw E). cbn. lia.
  - now apply IH.
Qed.

Lemma wellFormed_exactly_one (scenes : list SceneConfig) (p : Q) :
  forall first,
    Spec.wellFormed scenes = true ->
    hd_error scenes = Some first ->
    (scrollStart first <= p)%Q -> (p < scrollEnd (last scenes first))%Q ->
    List.length (filter (CameraController.inScene p) scenes) = 1%nat.
Proof.
  induction scenes as [|a rest IH]; intros first Hw Hhd Hlo Hhi; [discriminate|].
  injection Hhd as <-.
  pose proof (wellFormed_cons a rest Hw) as [Ha Hrest].
  cbn [filter]. unfold CameraController.inScene at 1.
  destruct (Js.ltb p (scrollEnd a)) eqn:E.
  - apply ltb_true in E. rewrite (proj2 (geb_true p (scrollStart a)) Hlo). cbn [andb].
    rewrite (later_scenes_miss a rest p Hw E). reflexivity.
  - apply ltb_false in E. rewrite andb_false_r.
    destruct rest as [|b r]; [cbn in Hhi; lra|].
    apply (IH b Hrest eq_refl).
    + pose proof (wellFormed_adjacent a b r Hw). lra.
    + rewrite (last_default_irrelevant r b b a). exact Hhi.
Qed.

(** X28: in every configuration whose segments each have
    [start < end] and end where the next one starts, no progress value
    lies in two segments, and every value from the first segment's start
    up to, but not including, the last segment's end lies in exactly
    one. *)
Theorem wellFormed_coverage (scenes : list SceneConfig) (p : Q) :
  Spec.wellFormed scenes = true ->
  (List.length (filter (CameraController.inScene p) scenes) <= 1)%nat
  /\ (forall first,
        hd_error scenes = Some first ->
        (scrollStart first <= p)%Q -> (p < scrollEnd (last scenes first))%Q ->
        List.length (filter (CameraController.inScene p) scenes) = 1%nat).
Proof.
  intros Hw. split; [now apply wellFormed_at_most_one|].
  intros first. now apply wellFormed_exactly_one.
Qed.

Lemma wellFormed_coverage_witness :
  (List.length (filter (CameraController.inScene 0.35) SCENE_TIMELINE) <= 1)%nat.
Proof.
  apply (wellFormed_coverage SCENE_TIMELINE 0.35). reflexivity.
Defined.

End WellFormedFacts.

(** ** Where the camera comes to rest *)

Section FinalPose.
Import Config.

Lemma power1_zero (x : Q) : (x == 0)%Q -> (Gsap.power1 x == 0)%Q.
Proof. intros H. unfold Gsap.power1. rewrite H. reflexivity. Qed.

Lemma power2_zero (x : Q) : (x == 0)%Q -> (Gsap.power2 x == 0)%Q.
Proof. intros H. unfold Gsap.power2. rewrite H. reflexivity. Qed.

Lemma power1_one (x : Q) : (x == 1)%Q -> (Gsap.power1 x == 1)%Q.
Proof. intros H. unfold Gsap.power1. rewrite H. reflexivity. Qed.

Lemma power2_one (x : Q) : (x == 1)%Q -> (Gsap.power2 x == 1)%Q.
Proof. intros H. unfold Gsap.power2. rewrite H. reflexivity. Qed.

Lemma easeOut_one (f : Q -> Q) (r : Q) :
  (forall x, x == 0 -> f x == 0)%Q -> (r == 1)%Q -> (Gsap.easeOut f r == 1)%Q.
Proof.
  intros Hf Hr. unfold Gsap.easeOut.
  rewrite (Hf (1 - r)%Q) by lra. reflexivity.
Qed.

Lemma easeInOut_one (f : Q -> Q) (r : Q) :
  (forall x, x == 0 -> f x == 0)%Q -> (r == 1)%Q -> (Gsap.easeInOut f r == 1)%Q.
Proof.
  intros Hf Hr. unfold Gsap.easeInOut.
  destruct (Js.ltb r 0.5) eqn:E; [apply ltb_true in E; lra|].
  rewrite (Hf ((1 - r) * 2)%Q) by lra. reflexivity.
Qed.

(** Every ease ends at 1. *)
Lemma parseEase_one (name : string) (r : Q) :
  (r == 1)%Q -> (Gsap.parseEase name r == 1)%Q.
Proof.
  intros Hr. unfold Gsap.parseEase.
  repeat match goal with
    | |- context [if String.eqb ?a ?b then _ else _] => destruct (String.eqb a b)
    end;
    first [ exact Hr
          | now apply power1_one
          | now apply power2_one
          | apply easeOut_one; [apply power1_zero | exact Hr]
          | apply easeOut_one; [apply power2_zero | exact Hr]
          | apply easeInOut_one; [apply power1_zero | exact Hr]
          | apply easeInOut_one; [apply power2_zero | exact Hr] ].
Qed.

(** A tween whose end the playhead has reached has fully elapsed. *)
Lemma ratio_done (tw : Gsap.Tween) (time : Q) :
  (Gsap.tw_at tw + Gsap.tw_duration tw <= time)%Q -> (Gsap.ratio tw time == 1)%Q.
Proof.
  intros H. unfold Gsap.ratio.
  destruct (Qle_bool (Gsap.tw_duration tw) 0) eqn:E; [reflexivity|].
  assert (Hd : (0 < Gsap.tw_duration tw)%Q).
  { apply Qnot_le_lt. intros C. apply Qle_bool_iff in C. congruence. }
  assert (H1 : (1 <= (time - Gsap.tw_at tw) / Gsap.tw_duration tw)%Q).
  { apply Qle_shift_div_l; [exact Hd | lra]. }
  apply Q.min_r. apply Q.max_le_iff. now left.
Qed.

Lemma lerp_done (a b e : Q) : (e == 1)%Q -> (Gsap.lerp a b e == b)%Q.
Proof. intros H. unfold Gsap.lerp. rewrite H. ring. Qed.

Lemma renderTween_position_done (scene : SceneConfig) (at_ time : Q) (c : Gsap.Camera) :
  (0 <= duration scene)%Q -> (at_ + duration scene <= time)%Q ->
  vecEq (Gsap.cam_position (Gsap.renderTween time c (positionTween scene at_)))
    (position (end_ (camera scene))).
Proof.
  intros Hd Ht. unfold positionTween.
  destruct (position (end_ (camera scene))) as [[x y] z].
  unfold Gsap.renderTween. cbn [Gsap.tw_at Gsap.vars Gsap.tw_ease].
  destruct (Js.ltb time at_) eqn:E; [apply ltb_true in E; lra|].
  destruct (Gsap.cam_position c) as [[px py] pz].
  cbn [Gsap.cam_position Gsap.lerpTo vecEq].
  match goal with
  | |- context [Gsap.parseEase ?n (Gsap.ratio ?tw time)] =>
      assert (He : (Gsap.parseEase n (Gsap.ratio tw time) == 1)%Q)
        by (apply parseEase_one, ratio_done; cbn; exact Ht)
  end.
  repeat split; apply lerp_done; exact He.
Qed.

Lemma renderTween_rotation_done (scene : SceneConfig) (at_ time : Q) (c : Gsap.Camera) :
  (0 <= duration scene)%Q -> (at_ + duration scene <= time)%Q ->
  vecEq (Gsap.cam_rotation (Gsap.renderTween time c (rotationTween scene at_)))
    (rotation (end_ (camera scene)))
  /\ Gsap.cam_position (Gsap.renderTween time c (rotationTween scene at_))
     = Gsap.cam_position c.
Proof.
  intros Hd Ht. unfold rotationTween.
  destruct (rotation (end_ (camera scene))) as [[x y] z].
  unfold Gsap.renderTween. cbn [Gsap.tw_at Gsap.vars Gsap.tw_ease].
  destruct (Js.ltb time at_) eqn:E; [apply ltb_true in E; lra|].
  destruct (Gsap.cam_rotation c) as [[rx ry] rz].
  cbn [Gsap.cam_rotation Gsap.cam_position Gsap.lerpTo vecEq].
  match goal with
  | |- context [Gsap.parseEase ?n (Gsap.ratio ?tw time)] =>
      assert (He : (Gsap.parseEase n (Gsap.ratio tw time) == 1)%Q)
        by (apply parseEase_one, ratio_done; cbn; exact Ht)
  end.
  split; [repeat split; apply lerp_done; exact He | reflexivity].
Qed.

Lemma renderTween_fov_keeps (time f d at_ : Q) (ease : string) (c : Gsap.Camera) :
  Gsap.cam_position
    (Gsap.renderTween time c
       {| Gsap.vars := Gsap.ToFov f; Gsap.tw_duration := d;
          Gsap.tw_ease := ease; Gsap.tw_at := at_ |}) = Gsap.cam_position c
  /\ Gsap.cam_rotation
       (Gsap.renderTween time c
          {| Gsap.vars := Gsap.ToFov f; Gsap.tw_duration := d;
             Gsap.tw_ease := ease; Gsap.tw_at := at_ |}) = Gsap.cam_rotation c.
Proof.
  unfold Gsap.renderTween. cbn [Gsap.tw_at Gsap.vars].
  destruct (Js.ltb time at_); split; reflexivity.
Qed.

Lemma render_app (a b : Gsap.Timeline) (time : Q) (c : Gsap.Camera) :
  Gsap.render (a ++ b) time c = Gsap.render b time (Gsap.render a time c).
Proof. unfold Gsap.render. apply fold_left_app. Qed.

Lemma total_duration_sum (scenes : list SceneConfig) :
  Forall (fun scene => (0 <= duration scene)%Q) scenes ->
  (Gsap.totalDuration (CameraController.buildTimeline scenes) == sumDurations scenes)%Q.
Proof.
  induction scenes as [|scene scenes IH] using rev_ind; intros Hall; [reflexivity|].
  apply Forall_app in Hall. destruct Hall as [Hall Hs].
  inversion Hs as [|? ? Hd _]; subst. specialize (IH Hall).
  rewrite buildTimeline_snoc, totalDuration_app, sumDurations_snoc, sceneTweens_shape.
  set (T := Gsap.totalDuration (CameraController.buildTimeline scenes)) in *.
  set (a := sumDurations scenes) in *.
  assert (E2 : (Qmax (Qmax T (a + duration scene)) (a + duration scene)
                == a + duration scene)%Q)
    by (apply Qmax_absorb, Q.max_lub; lra).
  unfold positionTween, rotationTween.
  destruct (position (end_ (camera scene))) as [[px py] pz].
  destruct (rotation (end_ (camera scene))) as [[rx ry] rz].
  destruct (animatesFov scene); [destruct (fov (end_ (camera scene)))|];
    cbn [fold_left Gsap.tw_at Gsap.tw_duration]; try exact E2.
  apply Qmax_absorb. lra.
Qed.

(** X29: for every configuration with no negative duration, at scroll
    progress 1 the camera rests at the end keyframe of the last scene,
    position and rotation, whatever pose it started from and whatever
    eases the scenes name. *)
Theorem camera_rests_at_last_keyframe (scenes : list SceneConfig) (scene : SceneConfig)
    (c : Gsap.Camera) :
  Forall (fun s => (0 <= duration s)%Q) scenes ->
  hd_error (rev scenes) = Some scene ->
  vecEq (Gsap.cam_position (Gsap.scrubbed (CameraController.buildTimeline scenes) 1 c))
    (position (end_ (camera scene)))
  /\ vecEq (Gsap.cam_rotation (Gsap.scrubbed (CameraController.buildTimeline scenes) 1 c))
       (rotation (end_ (camera scene))).
Proof.
  intros Hall Hlast.
  destruct scenes as [|s scenes _] using rev_ind; [discriminate|].
  rewrite rev_app_distr in Hlast. cbn in Hlast. injection Hlast as ->.
  pose proof (total_duration_sum (scenes ++ [scene]) Hall) as HT.
  rewrite sumDurations_snoc in HT.
  apply Forall_app in Hall. destruct Hall as [_ Hs].
  inversion Hs as [|? ? Hd _]; subst.
  unfold Gsap.scrubbed.
  set (time := (1 * Gsap.totalDuration (CameraController.buildTimeline (scenes ++ [scene])))%Q)
    in *.
  assert (Ht : (sumDurations scenes + duration scene <= time)%Q) by (unfold time; lra).
  rewrite buildTimeline_snoc, render_app, sceneTweens_shape.
  set (c' := Gsap.render (CameraController.buildTimeline scenes) time c).
  pose proof (renderTween_position_done scene (sumDurations scenes) time c' Hd Ht) as HP.
  set (c1 := Gsap.renderTween time c' (positionTween scene (sumDurations scenes))) in *.
  pose proof (renderTween_rotation_done scene (sumDurations scenes) time c1 Hd Ht)
    as [HR HRp].
  set (c2 := Gsap.renderTween time c1 (rotationTween scene (sumDurations scenes))) in *.
  unfold Gsap.render. cbn [fold_left]. fold c1. fold c2.
  destruct (animatesFov scene); [destruct (fov (end_ (camera scene))) as [f|]|];
    cbn [fold_left];
    try (destruct (renderTween_fov_keeps time f (duration scene) (sumDurations scenes)
                     (easing scene) c2) as [-> ->]);
    rewrite <- ?HRp in HP; split; assumption.
Qed.

Lemma camera_rests_at_last_keyframe_witness :
  vecEq (Gsap.cam_position (Gsap.scrubbed shippedTimeline 1 camera0)) (0, 0.3, 4.5)%Q.
Proof.
  refine (proj1 (camera_rests_at_last_keyframe SCENE_TIMELINE _ camera0 _ eq_refl)).
  repeat constructor; unfold Qle; cbn; lia.
Defined.

End FinalPose.
